(** * distlock: the lock / session / lease state machine of [main.go]

    A shallow embedding of the request handlers and of the timer callback
    of [main.go], followed by the properties of the specification that
    concern them.

    Conventions of the embedding:
    - the two Go maps [kvs] and [sessions] are finite maps from strings;
      the pointers they hold are each stored in one slot only, so a write
      through a pointer read from a map is an update of that slot;
    - the closure built by [startTimer] captures the pointer [s] and reads
      [s.Key] and [s.ID] when it runs; no statement of the program assigns
      these two fields after the session is built, so the closure is kept
      as the pair of strings it will read;
    - [kvLock] is part of the state: a handler that returns or panics
      without unlocking leaves it held;
    - [timers] holds the timers that have been armed and have not fired.
      A timer that fires leaves it: its callback has started and waits
      for the guard among the callbacks in flight of a [server], out of
      the reach of [Timer.Stop()].  The event [EExpire] is the run in
      which a timer fires and its callback takes the guard at once;
      [SFire] and [SRun] are the two halves apart, with requests served
      in between. *)

From Stdlib Require Import ZArith Ascii String.
From stdpp Require Import gmap strings list fin_maps.

Local Open Scope Z_scope.

(** ** strconv.ParseInt(s, 10, 64)

    The contract of the Go standard library function, [None] standing for
    a non-nil error: an optional sign, then one or more decimal digits,
    and a value that fits a signed 64-bit integer. *)

Definition digit (c : ascii) : option Z :=
  let n := Z.of_N (N_of_ascii c) in
  if (48 <=? n) && (n <=? 57) then Some (n - 48) else None.

Fixpoint ParseUint_from (acc : Z) (s : string) : option Z :=
  match s with
  | EmptyString => Some acc
  | String c s' =>
      match digit c with
      | Some d => ParseUint_from (acc * 10 + d) s'
      | None => None
      end
  end.

Definition ParseUint (s : string) : option Z :=
  match s with
  | EmptyString => None
  | _ => ParseUint_from 0 s
  end.

Definition ParseInt (s : string) : option Z :=
  match s with
  | EmptyString => None
  | String c s' =>
      let neg := Ascii.eqb c "-" in
      let body := if Ascii.eqb c "+" || neg then s' else s in
      match ParseUint body with
      | None => None
      | Some un =>
          let cutoff := 2 ^ 63 in
          if negb neg && (cutoff <=? un) then None
          else if neg && (cutoff <? un) then None
          else Some (if neg then - un else un)
      end
  end.

(** ** Data *)

Record session := mkSession {
  ID : string;
  Key : string;
  Timer : option nat            (* nil, or the handle of a time.Timer *)
}.

Record lockableValue := mkLockableValue {
  Value : string;
  IsLocked : bool
}.

(** What [time.AfterFunc] was given: the duration and the closure, the
    latter as the two fields of the captured session it reads. *)
Record timer := mkTimer {
  after : Z;
  tKey : string;
  tID : string
}.

(** sync.RWMutex: one writer, or any number of readers.  The record is
    who holds the mutex; [Lock] and [RLock] say whether a caller gets it
    from its holders alone.  That new readers also wait behind a writer
    that is waiting is the [queued] flag of a [server], which [sexec]
    consults before [RLock]. *)
Record RWMutex := mkRWMutex {
  writer : bool;
  readers : nat
}.

Definition Lock (m : RWMutex) : option RWMutex :=
  if writer m || (0 <? readers m)%nat then None
  else Some (mkRWMutex true (readers m)).

Definition Unlock (m : RWMutex) : RWMutex := mkRWMutex false (readers m).

Definition RLock (m : RWMutex) : option RWMutex :=
  if writer m then None else Some (mkRWMutex (writer m) (S (readers m))).

Definition RUnlock (m : RWMutex) : RWMutex :=
  mkRWMutex (writer m) (Nat.pred (readers m)).

Definition free : RWMutex := mkRWMutex false 0.

Record state := mkState {
  kvs : gmap string lockableValue;
  sessions : gmap string session;
  kvLock : RWMutex;
  timers : gmap nat timer;       (* pending timers, by handle *)
  next_timer : nat               (* the next handle time.AfterFunc returns *)
}.

Definition with_kvs (m : gmap string lockableValue) (st : state) : state :=
  mkState m (sessions st) (kvLock st) (timers st) (next_timer st).

Definition with_kvLock (l : RWMutex) (st : state) : state :=
  mkState (kvs st) (sessions st) l (timers st) (next_timer st).

(** The state [main] builds before it serves. *)
Definition init : state := mkState ∅ ∅ free ∅ 0.

(** Modelled from the spec: the package [types] (AcquireReturn,
    ReleaseReturn, SetReturn, GetReturn) is not among the sources; the
    fields are those [main.go] assigns and section 6 of the specification
    lists.  [HttpError] is what [http.Error] writes, [NoBody] a handler
    that writes nothing. *)
Inductive response :=
| HttpError (code : nat)
| AcquireReturn (SessionID : string) (Success : bool)
| ReleaseReturn (Success : bool)
| SetReturn (Success : bool)
| GetReturn (Success : bool) (Key Value : string)
| KeysReturn (ret : list string)
| NoBody.

Inductive outcome :=
| Done (r : response) (st : state)   (* the handler returned *)
| Panic (st : state)                 (* run-time panic; deferred calls have run *)
| Wait.                              (* no progress: the guard is not available *)

(** ** startTimer *)

(** [p] is the slot of the registry the pointer [s] was read from.
    [s.Timer.Stop()] takes the timer out of the pending ones; when the
    timer has fired it is no longer among them, the deletion does nothing
    ([Stop] returns false) and the started callback stays in flight. *)
Definition startTimer (duration : Z) (p : string) (s : session) (st : state) : state :=
  let pending :=
    match Timer s with
    | Some h => delete h (timers st)         (* s.Timer.Stop() *)
    | None => timers st
    end in
  let h := next_timer st in
  mkState (kvs st)
          (<[p := mkSession (ID s) (Key s) (Some h)]> (sessions st))
          (kvLock st)
          (<[h := mkTimer duration (Key s) (ID s)]> pending)
          (S h).

(** The function given to [time.AfterFunc], run for the pending timer [h]. *)
Definition expiry (h : nat) (t : timer) (st : state) : outcome :=
  match Lock (kvLock st) with
  | None => Wait
  | Some l =>
      Done NoBody
        (mkState (delete (tKey t) (kvs st))
                 (delete (tID t) (sessions st))
                 (Unlock l)
                 (delete h (timers st))
                 (next_timer st))
  end.

(** ** Handlers *)

(** /session/renew/{sessionId}/{duration} *)
Definition renew (sessionId duration : string) (st : state) : outcome :=
  match Lock (kvLock st) with
  | None => Wait
  | Some l =>
      (* defer kvLock.Unlock() *)
      match ParseInt duration with
      | None => Done (HttpError 500) (with_kvLock (Unlock l) st)
      | Some interval =>
          match sessions st !! sessionId with
          | Some s =>
              Done NoBody
                (with_kvLock (Unlock l) (startTimer interval sessionId s st))
          | None => Done NoBody (with_kvLock (Unlock l) st)
          end
      end
  end.

(** /session/destroy/{sessionId}.  [session.Timer.Stop()] cancels the
    timer only while it is pending, as in [startTimer]: a callback that
    has started stays in flight and runs after the destroy. *)
Definition destroy (sessionId : string) (st : state) : outcome :=
  match Lock (kvLock st) with
  | None => Wait
  | Some l =>
      (* defer kvLock.Unlock() *)
      match sessions st !! sessionId with
      | Some s =>
          match Timer s with
          | None => Panic (with_kvLock (Unlock l) st)     (* nil *time.Timer *)
          | Some h =>
              Done NoBody
                (mkState (delete (Key s) (kvs st))
                         (delete sessionId (sessions st))
                         (Unlock l)
                         (delete h (timers st))
                         (next_timer st))
          end
      | None => Done NoBody (with_kvLock (Unlock l) st)
      end
  end.

(** key[:n], which panics when n exceeds len(key). *)
Definition slice_to (key : string) (n : nat) : option string :=
  if (n <=? String.length key)%nat then Some (substring 0 n key) else None.

(** The body of [for key := range kvs], over the keys in the order the
    iteration visits them; [None] is the panic of an out-of-range slice. *)
Fixpoint keys_loop (prefix : string) (order : list string) (ret : list string)
  : option (list string) :=
  match order with
  | [] => Some ret
  | key :: rest =>
      if negb (String.eqb prefix EmptyString) then
        match slice_to key (String.length prefix) with
        | None => None
        | Some p =>
            if String.eqb p prefix then keys_loop prefix rest (ret ++ [key])
            else keys_loop prefix rest ret
        end
      else keys_loop prefix rest (ret ++ [key])
  end.

(** /kv/keys?prefix=...  Go leaves the order of [range] over a map
    open: [order] is the order this request visits the keys in. *)
Definition listKeys (prefix : string) (order : list string) (st : state) : outcome :=
  match RLock (kvLock st) with
  | None => Wait
  | Some l =>
      match keys_loop prefix order [] with
      | None => Panic (with_kvLock l st)          (* RUnlock is not deferred *)
      | Some ret => Done (KeysReturn ret) (with_kvLock (RUnlock l) st)
      end
  end.

(** An order [range kvs] may take. *)
Definition range_of (order : list string) (st : state) : Prop :=
  order ≡ₚ (map_to_list (kvs st)).*1.

(** /kv/acquire/{key}/{duration}?value=...  [cuid] is what [cuid.New()]
    returns for this request. *)
Definition acquire (key duration value cuid : string) (st : state) : outcome :=
  match Lock (kvLock st) with
  | None => Wait
  | Some l =>
      match ParseInt duration with
      | None => Done (HttpError 500) (with_kvLock l st)   (* no Unlock on this path *)
      | Some interval =>
          let table :=
            match kvs st !! key with
            | None => <[key := mkLockableValue value false]> (kvs st)
            | Some _ => kvs st
            end in
          match table !! key with
          | None => Panic (with_kvLock l (with_kvs table st))
          | Some v =>
              if negb (IsLocked v) then
                let s := mkSession cuid key None in
                let st1 :=
                  mkState (<[key := mkLockableValue (Value v) true]> table)
                          (<[cuid := s]> (sessions st))
                          l (timers st) (next_timer st) in
                Done (AcquireReturn cuid true)
                  (with_kvLock (Unlock l) (startTimer interval cuid s st1))
              else
                Done (AcquireReturn cuid false)
                  (with_kvLock (Unlock l) (with_kvs table st))
          end
      end
  end.

(** /kv/release/{key}/{sessionId} *)
Definition release (key sessionId : string) (st : state) : outcome :=
  match Lock (kvLock st) with
  | None => Wait
  | Some l =>
      match kvs st !! key with
      | Some v =>
          match sessions st !! sessionId with
          | Some s =>
              if String.eqb (Key s) key then
                Done (ReleaseReturn true)
                  (with_kvLock (Unlock l)
                     (with_kvs (<[key := mkLockableValue (Value v) false]> (kvs st)) st))
              else Done (ReleaseReturn false) (with_kvLock (Unlock l) st)
          | None => Done (ReleaseReturn false) (with_kvLock (Unlock l) st)
          end
      | None => Done (ReleaseReturn false) (with_kvLock (Unlock l) st)
      end
  end.

(** /kv/set/{key}?sessionId=...&value=...  An absent [sessionId] query
    parameter reads as the empty string. *)
Definition set (key value sessionId : string) (st : state) : outcome :=
  match Lock (kvLock st) with
  | None => Wait
  | Some l =>
      if negb (String.eqb sessionId EmptyString) then
        match sessions st !! sessionId with
        | Some s =>
            if String.eqb (Key s) key then
              match kvs st !! key with
              | None => Panic (with_kvLock l st)     (* kvs[key] is nil *)
              | Some v =>
                  Done (SetReturn true)
                    (with_kvLock (Unlock l)
                       (with_kvs (<[key := mkLockableValue value (IsLocked v)]> (kvs st)) st))
              end
            else Done (SetReturn false) (with_kvLock (Unlock l) st)
        | None => Done (SetReturn false) (with_kvLock (Unlock l) st)
        end
      else
        match kvs st !! key with
        | None =>
            Done (SetReturn true)
              (with_kvLock (Unlock l)
                 (with_kvs (<[key := mkLockableValue value false]> (kvs st)) st))
        | Some _ => Done (SetReturn false) (with_kvLock (Unlock l) st)
        end
  end.

(** /kv/get/{key} *)
Definition get (key : string) (st : state) : outcome :=
  match RLock (kvLock st) with
  | None => Wait
  | Some l =>
      match kvs st !! key with
      | Some v => Done (GetReturn true key (Value v)) (with_kvLock (RUnlock l) st)
      | None => Done (GetReturn false EmptyString EmptyString) (with_kvLock (RUnlock l) st)
      end
  end.

(** ** Runs of the server *)

(** What can happen to the shared state: a request served by one of the
    handlers, or a pending timer firing. *)
Inductive event :=
| EAcquire (key duration value cuid : string)
| ERelease (key sessionId : string)
| ESet (key value sessionId : string)
| EGet (key : string)
| EKeys (prefix : string) (order : list string)
| ERenew (sessionId duration : string)
| EDestroy (sessionId : string)
| EExpire (h : nat).

Definition exec (e : event) (st : state) : outcome :=
  match e with
  | EAcquire key duration value cuid => acquire key duration value cuid st
  | ERelease key sessionId => release key sessionId st
  | ESet key value sessionId => set key value sessionId st
  | EGet key => get key st
  | EKeys prefix order => listKeys prefix order st
  | ERenew sessionId duration => renew sessionId duration st
  | EDestroy sessionId => destroy sessionId st
  | EExpire h =>
      match timers st !! h with
      | Some t => expiry h t st
      | None => Wait                     (* nothing pending under this handle *)
      end
  end.

(** What the environment guarantees of an event: [cuid.New()] returns an
    identifier no registered session has, [range] visits every stored key
    once, and only a pending timer fires. *)
Definition enabled (e : event) (st : state) : Prop :=
  match e with
  | EAcquire _ _ _ cuid => sessions st !! cuid = None
  | EKeys _ order => range_of order st
  | EExpire h => is_Some (timers st !! h)
  | _ => True
  end.

(** The shared state an outcome leaves behind. *)
Definition final (o : outcome) : option state :=
  match o with
  | Done _ st => Some st
  | Panic st => Some st
  | Wait => None
  end.

Definition step (st : state) (e : event) (st' : state) : Prop :=
  enabled e st ∧ final (exec e st) = Some st'.

Inductive reachable : state → Prop :=
| reach_init : reachable init
| reach_step st e st' : reachable st → step st e st' → reachable st'.

(** Running a list of events from a state, for concrete scenarios. *)
Fixpoint run (es : list event) (st : state) : option state :=
  match es with
  | [] => Some st
  | e :: es' =>
      match final (exec e st) with
      | Some st' => run es' st'
      | None => None
      end
  end.

(** The answer of a request, when it gets one. *)
Definition answer (o : outcome) : option response :=
  match o with
  | Done r _ => Some r
  | _ => None
  end.

(** ** Predicates of the specification *)

(** The key has an entry whose lock flag is set. *)
Definition locked (k : string) (st : state) : Prop :=
  ∃ v, kvs st !! k = Some v ∧ IsLocked v = true.

(** Invariant 2 of the data model: the key of every registered session
    has an entry, and that entry is locked. *)
Definition session_keys_locked (st : state) : Prop :=
  ∀ sid s, sessions st !! sid = Some s → locked (Key s) st.

(** The key of every registered session has an entry. *)
Definition session_keys_present (st : state) : Prop :=
  ∀ sid s, sessions st !! sid = Some s → is_Some (kvs st !! Key s).

(** The three conditions under which [release] succeeds. *)
Definition may_release (key sessionId : string) (st : state) : Prop :=
  ∃ v s, kvs st !! key = Some v ∧ sessions st !! sessionId = Some s ∧ Key s = key.

(** The condition under which the authorized [set] succeeds. *)
Definition leases (sessionId key : string) (st : state) : Prop :=
  ∃ s, sessions st !! sessionId = Some s ∧ Key s = key.

(** Events that can clear the lock flag of [k] or remove its entry. *)
Definition unlocks (k : string) (e : event) (st : state) : Prop :=
  match e with
  | ERelease key sessionId => key = k ∧ leases sessionId k st
  | EDestroy sessionId => leases sessionId k st
  | EExpire h => ∃ t, timers st !! h = Some t ∧ tKey t = k
  | _ => False
  end.

(** A run as a chain of steps. *)
Inductive trace : state → list event → state → Prop :=
| trace_nil st : trace st [] st
| trace_cons st e st1 es st2 :
    step st e st1 → trace st1 es st2 → trace st (e :: es) st2.

(** Every event of a run is enabled where it occurs. *)
Fixpoint enabled_run (es : list event) (st : state) : Prop :=
  match es with
  | [] => True
  | e :: es' =>
      enabled e st
      ∧ match final (exec e st) with
        | Some st' => enabled_run es' st'
        | None => False
        end
  end.

(** The events by which the session [cuid] can stop holding [key]: its
    own release of the key, its destroy, and, taken broadly, any timer
    firing. *)
Definition gives_up (key cuid : string) (e : event) : bool :=
  match e with
  | ERelease k s => String.eqb k key && String.eqb s cuid
  | EDestroy s => String.eqb s cuid
  | EExpire _ => true
  | _ => false
  end.

(** Mutual exclusion as the specification words it: once the session
    [cuid] has acquired [key], no other acquire on [key] succeeds for as
    long as that session has not released, expired or been destroyed. *)
Definition one_holder_until_given_up : Prop :=
  ∀ st key d v cuid st1 es st2 d' v' cuid',
    reachable st →
    step st (EAcquire key d v cuid) st1 →
    answer (acquire key d v cuid st) = Some (AcquireReturn cuid true) →
    trace st1 es st2 →
    forallb (λ e, negb (gives_up key cuid e)) es = true →
    enabled (EAcquire key d' v' cuid') st2 →
    answer (acquire key d' v' cuid' st2) ≠ Some (AcquireReturn cuid' true).

(** ** Bookkeeping invariants *)

(** Every session is registered under its own id. *)
Definition ids_agree (st : state) : Prop :=
  ∀ sid s, sessions st !! sid = Some s → ID s = sid.

(** No two registered sessions lease the same key. *)
Definition one_session_per_key (st : state) : Prop :=
  ∀ sid1 s1 sid2 s2,
    sessions st !! sid1 = Some s1 → sessions st !! sid2 = Some s2 →
    Key s1 = Key s2 → sid1 = sid2.

(** Every pending timer is the current timer of the registered session
    it captured, and its handle is older than the next one. *)
Definition timers_current (st : state) : Prop :=
  ∀ h t, timers st !! h = Some t →
    (h < next_timer st)%nat
    ∧ ∃ s, sessions st !! tID t = Some s ∧ Key s = tKey t ∧ Timer s = Some h.

(** Invariant 2 with the bookkeeping that makes it inductive. *)
Record lease_inv (st : state) : Prop := mkLeaseInv {
  inv_locked : session_keys_locked st;
  inv_ids : ids_agree st;
  inv_one : one_session_per_key st;
  inv_timers : timers_current st
}.

(** The timer of every registered session is pending and captured that
    session. *)
Definition sessions_pending (st : state) : Prop :=
  ∀ sid s, sessions st !! sid = Some s →
    ∃ h t, Timer s = Some h ∧ timers st !! h = Some t ∧ tID t = sid.

(** Registered sessions and pending timers correspond one to one. *)
Record timer_inv (st : state) : Prop := mkTimerInv {
  tinv_ids : ids_agree st;
  tinv_timers : timers_current st;
  tinv_sessions : sessions_pending st
}.


Definition is_release (e : event) : bool :=
  match e with
  | ERelease _ _ => true
  | _ => false
  end.

(** ** Scenarios

    Durations are in nanoseconds, as [time.Duration] counts them: the
    leases below last a minute. *)

Module Scenario.
Local Open Scope string_scope.

(** A session acquires "k". *)
Definition after_acquire : state :=
  mkState {[ "k" := mkLockableValue "v" true ]}
          {[ "s0" := mkSession "s0" "k" (Some 0%nat) ]}
          free
          {[ 0%nat := mkTimer 60000000000 "k" "s0" ]}
          1.

(** It releases "k": it stays registered. *)
Definition released : list event :=
  [EAcquire "k" "60000000000" "v" "s0"; ERelease "k" "s0"].

Definition after_release : state :=
  mkState {[ "k" := mkLockableValue "v" false ]}
          {[ "s0" := mkSession "s0" "k" (Some 0%nat) ]}
          free
          {[ 0%nat := mkTimer 60000000000 "k" "s0" ]}
          1.

(** A second session then acquires "k". *)
Definition held_again : state :=
  mkState {[ "k" := mkLockableValue "v" true ]}
          (<[ "s1" := mkSession "s1" "k" (Some 1%nat) ]>
             {[ "s0" := mkSession "s0" "k" (Some 0%nat) ]})
          free
          (<[ 1%nat := mkTimer 60000000000 "k" "s1" ]> {[ 0%nat := mkTimer 60000000000 "k" "s0" ]})
          2.

(** The first session releases "k" once more, under the second one. *)
Definition released_again : state :=
  mkState {[ "k" := mkLockableValue "v" false ]}
          (<[ "s1" := mkSession "s1" "k" (Some 1%nat) ]>
             {[ "s0" := mkSession "s0" "k" (Some 0%nat) ]})
          free
          (<[ 1%nat := mkTimer 60000000000 "k" "s1" ]> {[ 0%nat := mkTimer 60000000000 "k" "s0" ]})
          2.

(** The second session is destroyed: the entry of "k" goes with it,
    the first session stays. *)
Definition orphaned : list event :=
  released ++ [EAcquire "k" "60000000000" "w" "s1"; EDestroy "s1"].

Definition after_destroy : state :=
  mkState ∅
          {[ "s0" := mkSession "s0" "k" (Some 0%nat) ]}
          free
          {[ 0%nat := mkTimer 60000000000 "k" "s0" ]}
          2.

(** The keys of the prefix-listing example, created by three
    unauthenticated sets. *)
Definition three_keys : list event :=
  [ESet "ab" "1" EmptyString; ESet "abc" "2" EmptyString; ESet "b" "3" EmptyString].

Definition with_three_keys : state :=
  mkState (<[ "b" := mkLockableValue "3" false ]>
             (<[ "abc" := mkLockableValue "2" false ]>
                {[ "ab" := mkLockableValue "1" false ]}))
          ∅ free ∅ 0.

End Scenario.

(** ** The status handler and further predicates *)

(** Modelled from the spec: [types.StatusReturn] is not among the sources;
    its field is the one [main.go] assigns and section 6 lists. *)
Record StatusReturn := mkStatusReturn { Running : bool }.

(** /status: the handler takes no guard and reads no table. *)
Definition status (st : state) : StatusReturn * state :=
  (mkStatusReturn true, st).

(** The events that take the guard in shared mode. *)
Definition is_read (e : event) : bool :=
  match e with
  | EGet _ | EKeys _ _ => true
  | _ => false
  end.

(** A locked key has a registered session leasing it. *)
Definition locked_has_session (st : state) : Prop :=
  ∀ k, locked k st → ∃ sid s, sessions st !! sid = Some s ∧ Key s = k.

(** ** The server: callbacks in flight and writers waiting

    Between the firing of a timer and the moment its callback holds the
    guard, requests are served: [Timer.Stop()] in a renew or a destroy
    then comes too late and the callback still runs.  And once a writer
    waits for the guard, new readers wait behind it. *)

Definition with_timers (m : gmap nat timer) (st : state) : state :=
  mkState (kvs st) (sessions st) (kvLock st) m (next_timer st).

Record server := mkServer {
  shared : state;
  started : gmap nat timer;     (* callbacks of fired timers, not yet holding the guard *)
  queued : bool                 (* a writer is waiting for the guard *)
}.

Definition boot : server := mkServer init ∅ false.

Inductive sevent :=
| SReq (e : event)              (* a request is served *)
| SFire (h : nat)               (* the pending timer [h] fires: its callback starts *)
| SRun (h : nat).               (* the started callback [h] asks for the guard *)

Inductive soutcome :=
| SDone (r : response) (srv : server)
| SPanic (srv : server)
| SWait (srv : server).          (* the caller waits for the guard, for good *)

(** The server after a handler's outcome; a writer that has to wait is
    from then on a waiting writer. *)
Definition settle (srv : server) (writer_asks : bool) (o : outcome) : soutcome :=
  match o with
  | Done r st => SDone r (mkServer st (started srv) (queued srv))
  | Panic st => SPanic (mkServer st (started srv) (queued srv))
  | Wait => SWait (mkServer (shared srv) (started srv) (queued srv || writer_asks))
  end.

Definition sexec (e : sevent) (srv : server) : soutcome :=
  match e with
  | SReq (EExpire _) => SWait srv           (* timers come as [SFire] and [SRun] *)
  | SReq e =>
      if is_read e then
        if queued srv then SWait srv        (* RLock behind a waiting writer *)
        else settle srv false (exec e (shared srv))
      else settle srv true (exec e (shared srv))
  | SFire h =>
      match timers (shared srv) !! h with
      | Some t =>
          SDone NoBody
            (mkServer (with_timers (delete h (timers (shared srv))) (shared srv))
                      (<[h := t]> (started srv))
                      (queued srv))
      | None => SWait srv
      end
  | SRun h =>
      match started srv !! h with
      | Some t =>
          match expiry h t (shared srv) with
          | Done r st => SDone r (mkServer st (delete h (started srv)) (queued srv))
          | Panic st => SPanic (mkServer st (delete h (started srv)) (queued srv))
          | Wait => SWait (mkServer (shared srv) (started srv) true)
          end
      | None => SWait srv
      end
  end.

Definition sfinal (o : soutcome) : server :=
  match o with
  | SDone _ srv => srv
  | SPanic srv => srv
  | SWait srv => srv
  end.

(** A callback, pending or in flight, under the handle [h]. *)
Definition callback (st : state) (fl : gmap nat timer) (h : nat) (t : timer) : Prop :=
  timers st !! h = Some t ∨ fl !! h = Some t.

(** What the environment guarantees: [cuid.New()] never repeats an
    identifier, so the one it returns is neither registered nor captured
    by a callback; [range] visits every stored key once; a timer fires
    while pending and its callback runs after it has started. *)
Definition senabled (e : sevent) (srv : server) : Prop :=
  match e with
  | SReq (EAcquire _ _ _ cuid) =>
      sessions (shared srv) !! cuid = None
      ∧ ∀ h t, callback (shared srv) (started srv) h t → tID t ≠ cuid
  | SReq (EKeys _ order) => range_of order (shared srv)
  | SReq (EExpire _) => False
  | SReq _ => True
  | SFire h => is_Some (timers (shared srv) !! h)
  | SRun h => is_Some (started srv !! h)
  end.

Definition sstep (srv : server) (e : sevent) (srv' : server) : Prop :=
  senabled e srv ∧ sfinal (sexec e srv) = srv'.

Inductive sreachable : server → Prop :=
| sreach_boot : sreachable boot
| sreach_step srv e srv' : sreachable srv → sstep srv e srv' → sreachable srv'.

(** What holds of sessions and callbacks in every state of the server. *)
Record swf (st : state) (fl : gmap nat timer) : Prop := mkSwf {
  wf_ids : ids_agree st;
  wf_fresh : ∀ h t, callback st fl h t → (h < next_timer st)%nat;
  wf_disjoint : ∀ h t, fl !! h = Some t → timers st !! h = None;
  wf_armed : ∀ sid s, sessions st !! sid = Some s →
               ∃ h t, Timer s = Some h ∧ callback st fl h t ∧ tID t = sid;
  wf_captured : ∀ h t s, callback st fl h t →
                  sessions st !! tID t = Some s → Key s = tKey t
}.

(** The callback [h] in flight is that of a session which is still
    registered and has not been renewed since the timer fired. *)
Definition current (h : nat) (srv : server) : Prop :=
  ∃ t s, started srv !! h = Some t
         ∧ sessions (shared srv) !! tID t = Some s
         ∧ Timer s = Some h ∧ Key s = tKey t.

(** The events across which the lease invariant is kept: all but a
    release and the run of a callback that is not [current]. *)
Definition keeps_lease (srv : server) (e : sevent) : Prop :=
  match e with
  | SReq e => is_release e = false
  | SFire _ => True
  | SRun h => current h srv
  end.

(** The lease invariant of a server: that of its shared state, with the
    callbacks in flight apart from the pending timers and older than the
    next handle. *)
Record slease_inv (srv : server) : Prop := mkSleaseInv {
  sinv_lease : lease_inv (shared srv);
  sinv_apart : ∀ h t, started srv !! h = Some t →
                 timers (shared srv) !! h = None ∧ (h < next_timer (shared srv))%nat
}.

(** A run of the server each of whose events satisfies [P] where it
    occurs. *)
Inductive strace (P : server → sevent → Prop) : server → list sevent → server → Prop :=
| strace_nil srv : strace P srv [] srv
| strace_cons srv e srv1 es srv2 :
    P srv e → sstep srv e srv1 → strace P srv1 es srv2 →
    strace P srv (e :: es) srv2.

(** ** Scenarios with a timer that has fired *)

Module Race.
Local Open Scope string_scope.

(** A session acquires "k" and its timer fires: the callback is in
    flight, the session still registered. *)
Definition fired : server :=
  mkServer (mkState {[ "k" := mkLockableValue "v" true ]}
                    {[ "s0" := mkSession "s0" "k" (Some 0%nat) ]}
                    free ∅ 1)
           {[ 0%nat := mkTimer 60000000000 "k" "s0" ]}
           false.

(** The session is destroyed: the callback stays in flight. *)
Definition destroyed_late : server :=
  mkServer (mkState ∅ ∅ free ∅ 1)
           {[ 0%nat := mkTimer 60000000000 "k" "s0" ]}
           false.

(** Another session acquires "k" before the callback runs. *)
Definition reacquired : server :=
  mkServer (mkState {[ "k" := mkLockableValue "w" true ]}
                    {[ "s1" := mkSession "s1" "k" (Some 1%nat) ]}
                    free
                    {[ 1%nat := mkTimer 60000000000 "k" "s1" ]}
                    2)
           {[ 0%nat := mkTimer 60000000000 "k" "s0" ]}
           false.

(** The callback of the destroyed session runs: the entry of "k" goes,
    the new session stays. *)
Definition orphaned : server :=
  mkServer (mkState ∅
                    {[ "s1" := mkSession "s1" "k" (Some 1%nat) ]}
                    free
                    {[ 1%nat := mkTimer 60000000000 "k" "s1" ]}
                    2)
           ∅ false.

(** The run that leads there. *)
Definition late_destroy : list sevent :=
  [SReq (EAcquire "k" "60000000000" "v" "s0"); SFire 0;
   SReq (EDestroy "s0");
   SReq (EAcquire "k" "60000000000" "w" "s1"); SRun 0].

(** The session is renewed instead, after its timer fired. *)
Definition renewed_late : server :=
  mkServer (mkState {[ "k" := mkLockableValue "v" true ]}
                    {[ "s0" := mkSession "s0" "k" (Some 1%nat) ]}
                    free
                    {[ 1%nat := mkTimer 5 "k" "s0" ]}
                    2)
           {[ 0%nat := mkTimer 60000000000 "k" "s0" ]}
           false.

End Race.

(** * Properties *)

(** ** The guard *)

Lemma Lock_free : Lock free = Some (mkRWMutex true 0).
Proof. reflexivity. Qed.

Lemma with_kvLock_same st : with_kvLock (kvLock st) st = st.
Proof. by destruct st. Qed.

Lemma with_kvLock_free st : kvLock st = free → with_kvLock free st = st.
Proof. intros <-. apply with_kvLock_same. Qed.

(** Entering a handler whose guard is free. *)
Ltac enter Hfree :=
  rewrite ?Hfree; cbn [Lock RLock Unlock RUnlock free writer readers orb Nat.ltb Nat.leb Nat.pred];
  change (mkRWMutex false 0) with free.

Lemma eqb_string_false (a b : string) : a ≠ b → String.eqb a b = false.
Proof. intros. by apply String.eqb_neq. Qed.

(** ** Unauthenticated set *)

(** C7. Without a session id, [set] succeeds and creates the entry with
    the given value, unlocked, exactly when the key has no entry; when an
    entry exists, locked or not, it answers success=false and the state,
    hence the entry's value and flag, is unchanged. *)
Theorem set_unauthenticated_creates_only (st : state) (key value : string) :
  kvLock st = free →
  (kvs st !! key = None ↔
     answer (set key value EmptyString st) = Some (SetReturn true))
  ∧ match kvs st !! key with
    | None =>
        set key value EmptyString st =
          Done (SetReturn true)
               (with_kvs (<[key := mkLockableValue value false]> (kvs st)) st)
    | Some _ => set key value EmptyString st = Done (SetReturn false) st
    end.
Proof.
  intros Hfree. unfold set. enter Hfree. cbn [String.eqb negb].
  destruct (kvs st !! key) as [v|] eqn:Hk; cbn [answer].
  - rewrite with_kvLock_free by done. split; [|done]. split; [done|]. by intros [= ?].
  - split; [done|]. f_equal. destruct st; cbn in *. by subst.
Qed.

(** ** Release *)

Lemma release_cases (st : state) (key sessionId : string) :
  kvLock st = free →
  (∃ v s, kvs st !! key = Some v ∧ sessions st !! sessionId = Some s ∧ Key s = key
          ∧ release key sessionId st =
              Done (ReleaseReturn true)
                   (with_kvs (<[key := mkLockableValue (Value v) false]> (kvs st)) st))
  ∨ (¬ may_release key sessionId st
     ∧ release key sessionId st = Done (ReleaseReturn false) st).
Proof.
  intros Hfree. unfold release, may_release. enter Hfree.
  rewrite with_kvLock_free by done.
  destruct (kvs st !! key) as [v|] eqn:Hk;
    [destruct (sessions st !! sessionId) as [s|] eqn:Hs;
      [destruct (String.eqb_spec (Key s) key) as [Heq|Hne]|]|].
  - left. exists v, s. repeat split; try done.
    f_equal. destruct st; cbn in *. by subst.
  - right. split; [|done]. intros (v' & s' & _ & [= <-] & ?). done.
  - right. split; [|done]. intros (v' & s' & _ & ? & _). done.
  - right. split; [|done]. intros (v' & s' & ? & _). done.
Qed.

Lemma get_present (st : state) (key : string) (v : lockableValue) :
  kvLock st = free → kvs st !! key = Some v →
  get key st = Done (GetReturn true key (Value v)) st.
Proof.
  intros Hfree Hk. unfold get. enter Hfree. rewrite Hk.
  by rewrite with_kvLock_free.
Qed.

Lemma get_absent (st : state) (key : string) :
  kvLock st = free → kvs st !! key = None →
  get key st = Done (GetReturn false EmptyString EmptyString) st.
Proof.
  intros Hfree Hk. unfold get. enter Hfree. rewrite Hk.
  by rewrite with_kvLock_free.
Qed.

(** An acquire with a valid duration on a key that is absent or unlocked
    succeeds: the entry is locked, keeping the value it had or taking the
    supplied one, and the session is registered with its timer armed. *)
Lemma acquire_unlocked (st : state) (key duration value cuid : string) (interval : Z) :
  kvLock st = free → ParseInt duration = Some interval → ¬ locked key st →
  let v := default value (Value <$> kvs st !! key) in
  acquire key duration value cuid st =
    Done (AcquireReturn cuid true)
         (mkState (<[key := mkLockableValue v true]> (kvs st))
                  (<[cuid := mkSession cuid key (Some (next_timer st))]> (sessions st))
                  free
                  (<[next_timer st := mkTimer interval key cuid]> (timers st))
                  (S (next_timer st))).
Proof.
  intros Hfree Hd Hun. unfold acquire. enter Hfree. rewrite Hd.
  destruct (kvs st !! key) as [v|] eqn:Hk; cbn [default fmap option_fmap option_map].
  - rewrite Hk. destruct (IsLocked v) eqn:Hl.
    { exfalso. apply Hun. by exists v. }
    cbn [negb]. unfold startTimer; cbn. by rewrite insert_insert_eq.
  - rewrite lookup_insert_eq. cbn [negb IsLocked Value].
    unfold startTimer; cbn. by rewrite !insert_insert_eq.
Qed.

(** An acquire with a valid duration on a locked key fails and leaves the
    whole state as it was. *)
Lemma acquire_locked (st : state) (key duration value cuid : string) (interval : Z) :
  kvLock st = free → ParseInt duration = Some interval → locked key st →
  acquire key duration value cuid st = Done (AcquireReturn cuid false) st.
Proof.
  intros Hfree Hd (v & Hk & Hl). unfold acquire. enter Hfree. rewrite Hd, !Hk, Hl.
  cbn [negb]. f_equal. destruct st; cbn in *. by subst.
Qed.

(** C5. [release] answers success=true exactly when the key has an entry,
    the session exists and the session's key is the requested key.  Then
    only the lock flag of the entry changes: the value is kept and [get]
    still finds it, the registry and the pending timers are untouched, and
    an acquire on the key that follows succeeds.  Otherwise it answers
    success=false and the state is unchanged. *)
Theorem release_clears_only_the_flag (st : state) (key sessionId : string) :
  kvLock st = free →
  (may_release key sessionId st ↔
     answer (release key sessionId st) = Some (ReleaseReturn true))
  ∧ (¬ may_release key sessionId st →
       release key sessionId st = Done (ReleaseReturn false) st)
  ∧ (∀ v s, kvs st !! key = Some v → sessions st !! sessionId = Some s → Key s = key →
       let st' := with_kvs (<[key := mkLockableValue (Value v) false]> (kvs st)) st in
       release key sessionId st = Done (ReleaseReturn true) st'
       ∧ get key st' = Done (GetReturn true key (Value v)) st'
       ∧ sessions st' = sessions st
       ∧ timers st' = timers st
       ∧ ∀ duration interval value cuid, ParseInt duration = Some interval →
           ∃ st'', acquire key duration value cuid st' =
                     Done (AcquireReturn cuid true) st'').
Proof.
  intros Hfree.
  destruct (release_cases st key sessionId Hfree)
    as [(v & s & Hk & Hs & Hkey & Hrel)|[Hno Hrel]].
  - split; [|split].
    + rewrite Hrel. split; [done|]. intros _. by exists v, s.
    + intros Hno. exfalso. apply Hno. by exists v, s.
    + intros v' s' Hk' Hs' _ st'. assert (v' = v) as -> by congruence.
      split; [exact Hrel|]. split; [|split; [done|split; [done|]]].
      * apply (get_present st' key (mkLockableValue (Value v) false)); [done|].
        apply lookup_insert_eq.
      * intros duration interval value cuid Hd. eexists.
        apply (acquire_unlocked st'); [done|done|].
        intros (w & Hw & Hl). unfold st' in Hw; cbn in Hw.
        rewrite lookup_insert_eq in Hw. by injection Hw as <-.
  - split; [|split].
    + rewrite Hrel. split; [done|]. by intros [= ?].
    + done.
    + intros v s Hk Hs Hkey. exfalso. apply Hno. by exists v, s.
Qed.

(** ** Mutual exclusion *)

(** The lock flag of a key survives every event but those of [unlocks],
    whatever the event's outcome. *)
Lemma locked_persists (st : state) (e : event) (st' : state) (k : string) :
  locked k st → final (exec e st) = Some st' → locked k st' ∨ unlocks k e st.
Proof.
  intros (v & Hk & Hl) Hfin.
  destruct e; cbn in Hfin;
    unfold acquire, release, set, get, listKeys, renew, destroy, expiry, startTimer in Hfin;
    repeat case_match; simplify_eq; cbn [final] in *; simplify_eq;
    unfold locked, leases; cbn.
  all: try (left; exists v; split; [done|done]).
  all: try match goal with
           | |- context [<[?a := _]> _ !! ?b] =>
               destruct (decide (a = b)) as [->|?];
               [rewrite ?lookup_insert_eq|rewrite ?lookup_insert_ne by done]
           end.
  all: try match goal with
           | |- context [delete ?a _ !! ?b] =>
               destruct (decide (a = b)) as [?|?];
               [|rewrite ?lookup_delete_ne by done]
           end.
  all: simplify_eq.
  all: try (left; eexists; split; [done|done]).
  - right. split; [done|]. eexists. split; [done|]. by apply String.eqb_eq.
  - right. by eexists.
  - right. by eexists.
Qed.

(** C1, as the program has it.  With the guard free and a valid duration:
    on a locked key [acquire] answers success=false with the generated id
    and leaves the whole state, hence the registry and the key's entry, as
    it was; on a key that is not locked it succeeds and the key is locked
    afterwards; and a locked key stays locked across every event that is
    not a successful release on it, nor the destroy or the expiry of a
    session leasing it. *)
Theorem acquire_excludes_while_locked
    (st : state) (k duration value cuid : string) (interval : Z) :
  kvLock st = free → ParseInt duration = Some interval →
  (locked k st →
     acquire k duration value cuid st = Done (AcquireReturn cuid false) st)
  ∧ (¬ locked k st →
       ∃ st', acquire k duration value cuid st = Done (AcquireReturn cuid true) st'
              ∧ locked k st'
              ∧ sessions st' !! cuid = Some (mkSession cuid k (Some (next_timer st))))
  ∧ (∀ e st', locked k st → final (exec e st) = Some st' →
       locked k st' ∨ unlocks k e st).
Proof.
  intros Hfree Hd. split; [|split].
  - intros Hl. by apply (acquire_locked st k duration value cuid interval).
  - intros Hun. eexists. split.
    + by apply (acquire_unlocked st k duration value cuid interval).
    + split.
      * eexists. cbn. by rewrite lookup_insert_eq.
      * cbn. by rewrite lookup_insert_eq.
  - intros e st' Hl Hfin. by apply (locked_persists st e st' k).
Qed.

(** The scenarios are runs of the server from its initial state. *)
Lemma run_released : run Scenario.released init = Some Scenario.after_release.
Proof. vm_compute. reflexivity. Qed.

Lemma run_orphaned : run Scenario.orphaned init = Some Scenario.after_destroy.
Proof. vm_compute. reflexivity. Qed.

Lemma run_three_keys : run Scenario.three_keys init = Some Scenario.with_three_keys.
Proof. vm_compute. reflexivity. Qed.

(** ** Bookkeeping *)

Lemma Lock_Some (m l : RWMutex) : Lock m = Some l → m = free ∧ l = mkRWMutex true 0.
Proof.
  destruct m as [[] [|n]]; cbn; intros [= <-]; done.
Qed.

Lemma locked_or_not (k : string) (st : state) : locked k st ∨ ¬ locked k st.
Proof.
  unfold locked. destruct (kvs st !! k) as [[v []]|] eqn:Hk.
  - left. by eexists.
  - right. intros (w & [= <-] & ?). done.
  - right. intros (w & ? & _). done.
Qed.

Lemma trace_reachable (st : state) (es : list event) (st' : state) :
  trace st es st' → reachable st → reachable st'.
Proof.
  induction 1 as [|st e st1 es st2 Hstep _ IH]; [done|].
  intros Hr. apply IH. by eapply reach_step.
Qed.

(** ** The lease invariant *)

Section LeaseInvariant.
Variable st : state.
Hypothesis Hinv : lease_inv st.

(** Steps that keep the registry and the timers, and every lock flag
    that was set. *)
Lemma lease_inv_kvs (st' : state) :
  sessions st' = sessions st → timers st' = timers st →
  next_timer st' = next_timer st →
  (∀ k, locked k st → locked k st') →
  lease_inv st'.
Proof.
  destruct Hinv as [Hl Hi Ho Ht]. intros Hs Htm Hn Hk. split.
  - intros sid s Hsid. apply Hk. apply (Hl sid). by rewrite <- Hs.
  - intros sid s. rewrite Hs. apply Hi.
  - intros sid1 s1 sid2 s2. rewrite Hs. apply Ho.
  - intros h t. rewrite Htm, Hn, Hs. apply Ht.
Qed.

(** A session leaves together with the entry of its key and its timer:
    what [destroy] and the expiry callback do. *)
Lemma lease_inv_remove (st' : state) (sid : string) (s : session) (h : nat) :
  sessions st !! sid = Some s → Timer s = Some h →
  kvs st' = delete (Key s) (kvs st) →
  sessions st' = delete sid (sessions st) →
  timers st' = delete h (timers st) →
  next_timer st' = next_timer st →
  lease_inv st'.
Proof.
  destruct Hinv as [Hl Hi Ho Ht]. intros Hsid Htimer Hk Hs Htm Hn. split.
  - intros sid' s'. rewrite Hs. intros [Hne Hsid']%lookup_delete_Some.
    destruct (Hl sid' s' Hsid') as (v & Hv & Hlk). exists v. split; [|done].
    rewrite Hk, lookup_delete_ne; [done|]. intros Heq. apply Hne.
    by apply (Ho sid s sid' s').
  - intros sid' s'. rewrite Hs. intros [_ ?]%lookup_delete_Some. by apply Hi.
  - intros sid1 s1 sid2 s2. rewrite Hs.
    intros [_ ?]%lookup_delete_Some [_ ?]%lookup_delete_Some. by apply Ho.
  - intros h' t. rewrite Htm, Hn, Hs. intros [Hne Hh']%lookup_delete_Some.
    destruct (Ht h' t Hh') as (Hlt & s' & Hs' & Hkey & Htm').
    split; [done|]. exists s'. split; [|done].
    rewrite lookup_delete_ne; [done|]. intros Heq. apply Hne.
    rewrite <- Heq in Hs'. congruence.
Qed.

(** [startTimer] on a registered session: what [renew] does. *)
Lemma lease_inv_startTimer (duration : Z) (sid : string) (s : session) :
  sessions st !! sid = Some s →
  lease_inv (startTimer duration sid s st).
Proof.
  destruct Hinv as [Hl Hi Ho Ht]. intros Hsid.
  assert (Hid : ID s = sid) by by apply Hi.
  unfold startTimer.
  split; unfold session_keys_locked, ids_agree, one_session_per_key, timers_current, locked; cbn.
  - intros sid' s'. intros [[<- <-]|[_ Hs']]%lookup_insert_Some.
    + apply (Hl sid s Hsid).
    + apply (Hl sid' s' Hs').
  - intros sid' s'. intros [[<- <-]|[_ Hs']]%lookup_insert_Some; [done|by apply Hi].
  - intros sid1 s1 sid2 s2.
    intros [[<- <-]|[Hn1 Hs1]]%lookup_insert_Some
           [[<- <-]|[Hn2 Hs2]]%lookup_insert_Some; cbn; try done.
    + intros Heq. by apply (Ho sid s sid2 s2).
    + intros Heq. by apply (Ho sid1 s1 sid s).
    + by apply Ho.
  - intros h' t. intros [[<- <-]|[Hne Hh']]%lookup_insert_Some; cbn.
    + split; [lia|]. eexists. rewrite Hid, lookup_insert_eq. done.
    + assert (Hold : timers st !! h' = Some t ∧ Timer s ≠ Some h').
      { destruct (Timer s) as [h0|]; [|done].
        apply lookup_delete_Some in Hh' as [? ?]. split; [done|congruence]. }
      destruct Hold as [Hold Hcur].
      destruct (Ht h' t Hold) as (Hlt & s' & Hs' & Hkey & Htm').
      split; [lia|]. exists s'. split; [|done].
      rewrite lookup_insert_ne; [done|]. intros Heq. apply Hcur.
      rewrite <- Heq in Hs'. congruence.
Qed.

(** A successful [acquire] under a fresh identifier. *)
Lemma lease_inv_acquire (key cuid : string) (v : string) (interval : Z) (l : RWMutex) :
  sessions st !! cuid = None → ¬ locked key st →
  lease_inv
    (mkState (<[key := mkLockableValue v true]> (kvs st))
             (<[cuid := mkSession cuid key (Some (next_timer st))]> (sessions st))
             l
             (<[next_timer st := mkTimer interval key cuid]> (timers st))
             (S (next_timer st))).
Proof.
  destruct Hinv as [Hl Hi Ho Ht]. intros Hfresh Hun.
  assert (Hother : ∀ sid s, sessions st !! sid = Some s → Key s ≠ key).
  { intros sid s Hs <-. apply Hun. by apply (Hl sid). }
  split; unfold session_keys_locked, ids_agree, one_session_per_key, timers_current, locked; cbn.
  - intros sid s. intros [[<- <-]|[_ Hs]]%lookup_insert_Some; cbn.
    + eexists. by rewrite lookup_insert_eq.
    + destruct (Hl sid s Hs) as (w & Hw & Hlk). exists w. split; [|done].
      rewrite lookup_insert_ne; [done|]. intros Heq. by apply (Hother sid s).
  - intros sid s. intros [[<- <-]|[_ Hs]]%lookup_insert_Some; [done|by apply Hi].
  - intros sid1 s1 sid2 s2.
    intros [[<- <-]|[Hn1 Hs1]]%lookup_insert_Some
           [[<- <-]|[Hn2 Hs2]]%lookup_insert_Some; cbn; try done.
    + intros Heq. by destruct (Hother sid2 s2).
    + intros Heq. by destruct (Hother sid1 s1).
    + by apply Ho.
  - intros h t. intros [[<- <-]|[Hne Hh]]%lookup_insert_Some; cbn.
    + split; [lia|]. eexists. by rewrite lookup_insert_eq.
    + destruct (Ht h t Hh) as (Hlt & s' & Hs' & Hkey & Htm').
      split; [lia|]. exists s'. split; [|done].
      rewrite lookup_insert_ne; [done|]. intros Heq.
      rewrite <- Heq in Hs'. congruence.
Qed.

End LeaseInvariant.

Lemma lease_inv_init : lease_inv init.
Proof.
  split.
  - intros sid s. cbn. by rewrite lookup_empty.
  - intros sid s. cbn. by rewrite lookup_empty.
  - intros sid1 s1 sid2 s2. cbn. by rewrite lookup_empty.
  - intros h t. cbn. by rewrite lookup_empty.
Qed.

Lemma lease_inv_with_kvLock (l : RWMutex) (st : state) :
  lease_inv st → lease_inv (with_kvLock l st).
Proof. intros Hinv. by apply (lease_inv_kvs st). Qed.

(** One event that is not a release, whatever its outcome, preserves the
    lease invariant. *)
Lemma lease_inv_step (st : state) (e : event) (st' : state) :
  lease_inv st → step st e st' → is_release e = false → lease_inv st'.
Proof.
  intros Hinv [Hen Hfin] Hrel. destruct e; cbn in Hen, Hfin, Hrel; try done.
  - (* acquire *)
    destruct (Lock (kvLock st)) as [l|] eqn:HL;
      [|by unfold acquire in Hfin; rewrite HL in Hfin].
    apply Lock_Some in HL as [Hfree ->].
    destruct (ParseInt duration) as [interval|] eqn:Hd.
    + destruct (locked_or_not key st) as [Hl|Hun].
      * rewrite (acquire_locked st key duration value cuid interval) in Hfin by done.
        by injection Hfin as <-.
      * rewrite (acquire_unlocked st key duration value cuid interval) in Hfin by done.
        injection Hfin as <-. by apply lease_inv_acquire.
    + unfold acquire in Hfin. rewrite Hfree, Lock_free, Hd in Hfin.
      injection Hfin as <-. by apply lease_inv_with_kvLock.
  - (* set *)
    unfold set in Hfin. repeat case_match; simplify_eq; cbn [final] in *; simplify_eq;
      apply (lease_inv_kvs st); try done; cbn.
    + intros k (w & Hw & Hl). destruct (decide (key = k)) as [->|Hne].
      * eexists. cbn. rewrite lookup_insert_eq. split; [reflexivity|].
        cbn. congruence.
      * exists w. cbn. by rewrite lookup_insert_ne.
    + intros k (w & Hw & Hl). exists w. cbn. split; [|done].
      rewrite lookup_insert_ne; [done|]. congruence.
  - (* get *)
    unfold get in Hfin. repeat case_match; simplify_eq; cbn [final] in *; simplify_eq;
      by apply lease_inv_with_kvLock.
  - (* keys *)
    unfold listKeys in Hfin. repeat case_match; simplify_eq; cbn [final] in *; simplify_eq;
      by apply lease_inv_with_kvLock.
  - (* renew *)
    unfold renew in Hfin. repeat case_match; simplify_eq; cbn [final] in *; simplify_eq;
      apply lease_inv_with_kvLock; try done.
    by apply lease_inv_startTimer.
  - (* destroy *)
    unfold destroy in Hfin. repeat case_match; simplify_eq; cbn [final] in *; simplify_eq;
      try (by apply lease_inv_with_kvLock).
    by eapply (lease_inv_remove st Hinv _ sessionId).
  - (* expiry *)
    destruct (timers st !! h) as [t|] eqn:Ht; [|done].
    unfold expiry in Hfin. destruct (Lock (kvLock st)) as [l|]; [|done].
    injection Hfin as <-.
    destruct (inv_timers st Hinv h t Ht) as (_ & s & Hs & Hkey & Htm).
    eapply (lease_inv_remove st Hinv _ (tID t) s h); try done.
    cbn. by rewrite Hkey.
Qed.

(** ** Sessions and their timers *)

Section TimerInvariant.
Variable st : state.
Hypothesis Hinv : timer_inv st.

Lemma timer_inv_same (st' : state) :
  sessions st' = sessions st → timers st' = timers st →
  next_timer st' = next_timer st → timer_inv st'.
Proof.
  destruct Hinv as [Hi Ht Hs]. intros Es Et En. split.
  - intros sid s. rewrite Es. apply Hi.
  - intros h t. rewrite Et, En, Es. apply Ht.
  - intros sid s. rewrite Es, Et. apply Hs.
Qed.

(** The handle a session holds belongs to no other session. *)
Lemma handle_owner (sid sid' : string) (s s' : session) (h : nat) :
  sessions st !! sid = Some s → Timer s = Some h →
  sessions st !! sid' = Some s' → Timer s' = Some h → sid = sid'.
Proof.
  destruct Hinv as [Hi Ht Hs]. intros H1 T1 H2 T2.
  destruct (Hs sid s H1) as (h1 & t1 & E1 & P1 & I1).
  destruct (Hs sid' s' H2) as (h2 & t2 & E2 & P2 & I2).
  congruence.
Qed.

Lemma timer_inv_remove (st' : state) (sid : string) (s : session) (h : nat) :
  sessions st !! sid = Some s → Timer s = Some h →
  sessions st' = delete sid (sessions st) →
  timers st' = delete h (timers st) →
  next_timer st' = next_timer st →
  timer_inv st'.
Proof.
  pose proof handle_owner as Hown.
  destruct Hinv as [Hi Ht Hs]. intros Hsid Htimer Es Et En. split.
  - intros sid' s'. rewrite Es. intros [_ ?]%lookup_delete_Some. by apply Hi.
  - intros h' t. rewrite Et, En, Es. intros [Hne Hh']%lookup_delete_Some.
    destruct (Ht h' t Hh') as (Hlt & s' & Hs' & Hkey & Htm').
    split; [done|]. exists s'. split; [|done].
    rewrite lookup_delete_ne; [done|]. intros Heq. apply Hne.
    rewrite <- Heq in Hs'. congruence.
  - intros sid' s'. rewrite Es, Et. intros [Hne Hsid']%lookup_delete_Some.
    destruct (Hs sid' s' Hsid') as (h' & t' & E' & P' & I').
    exists h', t'. split; [done|]. split; [|done].
    rewrite lookup_delete_ne; [done|]. intros <-. apply Hne.
    by apply (Hown sid sid' s s' h).
Qed.

Lemma timer_inv_startTimer (duration : Z) (sid : string) (s : session) :
  sessions st !! sid = Some s → timer_inv (startTimer duration sid s st).
Proof.
  pose proof handle_owner as Hown.
  destruct Hinv as [Hi Ht Hs]. intros Hsid.
  assert (Hid : ID s = sid) by by apply Hi.
  destruct (Hs sid s Hsid) as (h0 & t0 & E0 & P0 & I0).
  unfold startTimer. rewrite E0.
  split; unfold ids_agree, timers_current, sessions_pending; cbn.
  - intros sid' s'. intros [[<- <-]|[_ Hs']]%lookup_insert_Some; [done|by apply Hi].
  - intros h' t. intros [[<- <-]|[Hne Hh']]%lookup_insert_Some; cbn.
    + split; [lia|]. eexists. rewrite Hid, lookup_insert_eq. done.
    + apply lookup_delete_Some in Hh' as [Hne0 Hh'].
      destruct (Ht h' t Hh') as (Hlt & s' & Hs' & Hkey & Htm').
      split; [lia|]. exists s'. split; [|done].
      rewrite lookup_insert_ne; [done|]. intros Heq. apply Hne0.
      rewrite <- Heq in Hs'. congruence.
  - intros sid' s'. intros [[<- <-]|[Hne Hs']]%lookup_insert_Some; cbn.
    + eexists _, _. split; [done|]. rewrite lookup_insert_eq. done.
    + destruct (Hs sid' s' Hs') as (h' & t' & E' & P' & I').
      exists h', t'. split; [done|]. split; [|done].
      destruct (Ht h' t' P') as (Hlt & _).
      rewrite lookup_insert_ne by lia. rewrite lookup_delete_ne; [done|].
      intros <-. apply Hne. by apply (Hown sid sid' s s' h0).
Qed.

Lemma timer_inv_acquire (key cuid : string) (v : string) (interval : Z) (l : RWMutex) :
  sessions st !! cuid = None →
  timer_inv
    (mkState (<[key := mkLockableValue v true]> (kvs st))
             (<[cuid := mkSession cuid key (Some (next_timer st))]> (sessions st))
             l
             (<[next_timer st := mkTimer interval key cuid]> (timers st))
             (S (next_timer st))).
Proof.
  destruct Hinv as [Hi Ht Hs]. intros Hfresh.
  split; unfold ids_agree, timers_current, sessions_pending; cbn.
  - intros sid s. intros [[<- <-]|[_ Hs']]%lookup_insert_Some; [done|by apply Hi].
  - intros h t. intros [[<- <-]|[Hne Hh]]%lookup_insert_Some; cbn.
    + split; [lia|]. eexists. by rewrite lookup_insert_eq.
    + destruct (Ht h t Hh) as (Hlt & s' & Hs' & Hkey & Htm').
      split; [lia|]. exists s'. split; [|done].
      rewrite lookup_insert_ne; [done|]. intros Heq.
      rewrite <- Heq in Hs'. congruence.
  - intros sid s. intros [[<- <-]|[Hne Hs']]%lookup_insert_Some; cbn.
    + eexists _, _. split; [done|]. by rewrite lookup_insert_eq.
    + destruct (Hs sid s Hs') as (h' & t' & E' & P' & I').
      exists h', t'. split; [done|]. split; [|done].
      destruct (Ht h' t' P') as (Hlt & _).
      rewrite lookup_insert_ne by lia. done.
Qed.

End TimerInvariant.

Lemma timer_inv_init : timer_inv init.
Proof.
  split.
  - intros sid s. cbn. by rewrite lookup_empty.
  - intros h t. cbn. by rewrite lookup_empty.
  - intros sid s. cbn. by rewrite lookup_empty.
Qed.

Lemma timer_inv_with_kvLock (l : RWMutex) (st : state) :
  timer_inv st → timer_inv (with_kvLock l st).
Proof. intros Hinv. by apply (timer_inv_same st). Qed.

(** Every event, release included, keeps sessions and timers in
    correspondence. *)
Lemma timer_inv_step (st : state) (e : event) (st' : state) :
  timer_inv st → step st e st' → timer_inv st'.
Proof.
  intros Hinv [Hen Hfin]. destruct e; cbn in Hen, Hfin.
  - (* acquire *)
    destruct (Lock (kvLock st)) as [l|] eqn:HL;
      [|by unfold acquire in Hfin; rewrite HL in Hfin].
    apply Lock_Some in HL as [Hfree ->].
    destruct (ParseInt duration) as [interval|] eqn:Hd.
    + destruct (locked_or_not key st) as [Hl|Hun].
      * rewrite (acquire_locked st key duration value cuid interval) in Hfin by done.
        by injection Hfin as <-.
      * rewrite (acquire_unlocked st key duration value cuid interval) in Hfin by done.
        injection Hfin as <-. by apply timer_inv_acquire.
    + unfold acquire in Hfin. rewrite Hfree, Lock_free, Hd in Hfin.
      injection Hfin as <-. by apply timer_inv_with_kvLock.
  - (* release *)
    unfold release in Hfin. repeat case_match; simplify_eq; cbn [final] in *; simplify_eq;
      by apply (timer_inv_same st).
  - (* set *)
    unfold set in Hfin. repeat case_match; simplify_eq; cbn [final] in *; simplify_eq;
      by apply (timer_inv_same st).
  - (* get *)
    unfold get in Hfin. repeat case_match; simplify_eq; cbn [final] in *; simplify_eq;
      by apply timer_inv_with_kvLock.
  - (* keys *)
    unfold listKeys in Hfin. repeat case_match; simplify_eq; cbn [final] in *; simplify_eq;
      by apply timer_inv_with_kvLock.
  - (* renew *)
    unfold renew in Hfin. repeat case_match; simplify_eq; cbn [final] in *; simplify_eq;
      apply timer_inv_with_kvLock; try done.
    by apply timer_inv_startTimer.
  - (* destroy *)
    unfold destroy in Hfin. repeat case_match; simplify_eq; cbn [final] in *; simplify_eq;
      try (by apply timer_inv_with_kvLock).
    by eapply (timer_inv_remove st Hinv _ sessionId).
  - (* expiry *)
    destruct (timers st !! h) as [t|] eqn:Ht; [|done].
    unfold expiry in Hfin. destruct (Lock (kvLock st)) as [l|]; [|done].
    injection Hfin as <-.
    destruct (tinv_timers st Hinv h t Ht) as (_ & s & Hs & Hkey & Htm).
    by eapply (timer_inv_remove st Hinv _ (tID t) s h).
Qed.

Lemma timer_inv_reachable (st : state) : reachable st → timer_inv st.
Proof.
  induction 1 as [|st e st' _ IH Hstep]; [apply timer_inv_init|].
  by apply (timer_inv_step st e st').
Qed.



(** ** Scenarios from the initial state *)

Lemma run_trace (es : list event) (st st' : state) :
  enabled_run es st → run es st = Some st' → trace st es st'.
Proof.
  revert st. induction es as [|e es IH]; intros st Hen Hrun; cbn in *.
  - injection Hrun as <-. constructor.
  - destruct Hen as [He Hes]. destruct (final (exec e st)) as [st1|] eqn:Hfin; [|done].
    apply (trace_cons st e st1); [by split|by apply IH].
Qed.

Ltac concrete_step :=
  split; [unfold enabled; try done; vm_compute; reflexivity | vm_compute; reflexivity].

Lemma reachable_after_acquire : reachable Scenario.after_acquire.
Proof.
  apply (reach_step init (EAcquire "k" "60000000000" "v" "s0")); [constructor|concrete_step].
Qed.

Lemma reachable_after_release : reachable Scenario.after_release.
Proof.
  apply (trace_reachable init Scenario.released); [|constructor].
  apply run_trace; [vm_compute; repeat split|apply run_released].
Qed.

Lemma reachable_after_destroy : reachable Scenario.after_destroy.
Proof.
  apply (trace_reachable init Scenario.orphaned); [|constructor].
  apply run_trace; [vm_compute; repeat split|apply run_orphaned].
Qed.

Lemma reachable_with_three_keys : reachable Scenario.with_three_keys.
Proof.
  apply (trace_reachable init Scenario.three_keys); [|constructor].
  apply run_trace; [vm_compute; repeat split|apply run_three_keys].
Qed.

(** C1, as the specification words it, fails: the session "s0" acquires
    "k" and releases it, staying registered; "s1" then acquires "k"; a
    second release by "s0" clears the flag under "s1", which has neither
    released, expired nor been destroyed; and the acquire of "s2" on "k"
    succeeds. *)
Lemma stale_release_breaks_exclusion : ¬ one_holder_until_given_up.
Proof.
  intros Hclaim.
  apply (Hclaim Scenario.after_release "k" "60000000000" "w" "s1" Scenario.held_again
           [ERelease "k" "s0"] Scenario.released_again "60000000000" "x" "s2")%string.
  - apply reachable_after_release.
  - concrete_step.
  - vm_compute. reflexivity.
  - apply (trace_cons _ _ Scenario.released_again); [concrete_step|constructor].
  - reflexivity.
  - vm_compute. reflexivity.
  - vm_compute. reflexivity.
Qed.

(** C2, as the specification words it, fails: after its release of "k"
    the session "s0" is still registered, the guard is free, and the entry
    of "k" is not locked.  The release is a step from a state in which the
    property held. *)
Lemma release_breaks_session_keys_locked :
  reachable Scenario.after_acquire
  ∧ session_keys_locked Scenario.after_acquire
  ∧ step Scenario.after_acquire (ERelease "k" "s0") Scenario.after_release
  ∧ kvLock Scenario.after_release = free
  ∧ ¬ session_keys_locked Scenario.after_release.
Proof.
  split; [apply reachable_after_acquire|]. split; [|split; [|split]].
  - intros sid s. unfold Scenario.after_acquire at 1. cbn [sessions].
    intros [<- <-]%lookup_singleton_Some. eexists. split; reflexivity.
  - concrete_step.
  - reflexivity.
  - intros Hinv.
    destruct (Hinv "s0"%string (mkSession "s0" "k" (Some 0%nat))) as (v & Hv & Hl).
    + reflexivity.
    + vm_compute in Hv. injection Hv as <-. done.
Qed.

(** ** Listing keys *)

Lemma keys_loop_empty_prefix (order ret : list string) :
  keys_loop EmptyString order ret = Some (ret ++ order).
Proof.
  revert ret. induction order as [|key rest IH]; intros ret; cbn.
  - by rewrite app_nil_r.
  - rewrite IH. by rewrite <- app_assoc.
Qed.

(** With an empty prefix every key is returned, in the order visited. *)
Lemma listKeys_empty_prefix (st : state) (order : list string) :
  kvLock st = free →
  listKeys EmptyString order st = Done (KeysReturn order) st.
Proof.
  intros Hfree. unfold listKeys. enter Hfree.
  rewrite keys_loop_empty_prefix. cbn [app]. by rewrite with_kvLock_free.
Qed.

(** A key shorter than a non-empty prefix makes the slice, and so the
    loop, panic, wherever the key comes in the order. *)
Lemma keys_loop_short_key (prefix key : string) (order ret : list string) :
  prefix ≠ EmptyString → key ∈ order →
  (String.length key < String.length prefix)%nat →
  keys_loop prefix order ret = None.
Proof.
  intros Hne Hin Hlen. revert ret.
  induction order as [|key0 rest IH]; intros ret; [by apply elem_of_nil in Hin|].
  cbn [keys_loop]. rewrite (eqb_string_false prefix EmptyString Hne). cbn [negb].
  unfold slice_to.
  destruct (String.length prefix <=? String.length key0)%nat eqn:Hle; [|done].
  apply elem_of_cons in Hin as [->|Hin].
  { apply Nat.leb_le in Hle. lia. }
  destruct (String.eqb _ prefix); by apply IH.
Qed.

Lemma range_of_elem (order : list string) (st : state) (k : string) :
  range_of order st → is_Some (kvs st !! k) → k ∈ order.
Proof.
  intros Hperm [v Hv]. unfold range_of in Hperm. rewrite Hperm.
  apply list_elem_of_fmap. exists (k, v). split; [done|].
  by apply elem_of_map_to_list.
Qed.

Lemma listKeys_short_key (st : state) (prefix key : string) (order : list string) :
  kvLock st = free → range_of order st →
  prefix ≠ EmptyString → is_Some (kvs st !! key) →
  (String.length key < String.length prefix)%nat →
  listKeys prefix order st = Panic (with_kvLock (mkRWMutex false 1) st).
Proof.
  intros Hfree Hrange Hne Hkey Hlen. unfold listKeys. enter Hfree.
  rewrite (keys_loop_short_key prefix key); try done.
  by apply (range_of_elem order st).
Qed.

(** C3 fails on the program.  With the keys "ab", "abc" and "b" stored,
    listing with the prefix "ab", and likewise with "abcdef", panics in
    whatever order the keys are visited: the slice of "b" is out of range.
    The read lock taken by the request stays held. *)
Theorem listKeys_panics_on_short_key (order : list string) :
  range_of order Scenario.with_three_keys →
  listKeys "ab" order Scenario.with_three_keys =
    Panic (with_kvLock (mkRWMutex false 1) Scenario.with_three_keys)
  ∧ listKeys "abcdef" order Scenario.with_three_keys =
      Panic (with_kvLock (mkRWMutex false 1) Scenario.with_three_keys).
Proof.
  intros Hrange.
  split; apply (listKeys_short_key _ _ "b"); try done; cbn; try lia.
  all: by eexists.
Qed.

Lemma listKeys_panics_on_short_key_witness :
  let order := (map_to_list (kvs Scenario.with_three_keys)).*1 in
  range_of order Scenario.with_three_keys
  ∧ listKeys "ab" order Scenario.with_three_keys =
      Panic (with_kvLock (mkRWMutex false 1) Scenario.with_three_keys).
Proof.
  intros order. split; [unfold range_of; reflexivity|].
  apply (listKeys_panics_on_short_key order). unfold range_of. reflexivity.
Defined.

(** ** Expiry *)





(** ** Durations *)

Lemma ParseUint_from_nondigit (c : ascii) (s : string) (acc : Z) :
  In c (list_ascii_of_string s) → digit c = None → ParseUint_from acc s = None.
Proof.
  intros Hin Hc. revert acc.
  induction s as [|c0 s IH]; intros acc; cbn in *; [done|].
  destruct Hin as [->|Hin]; [by rewrite Hc|].
  destruct (digit c0); [by apply IH|done].
Qed.

(** A duration with a character that is not a decimal digit after its
    first character is rejected, as is the empty one. *)
Lemma ParseInt_nondigit (c0 c : ascii) (s : string) :
  In c (list_ascii_of_string s) → digit c = None → ParseInt (String c0 s) = None.
Proof.
  intros Hin Hc. unfold ParseInt.
  assert (Hs : ParseUint s = None).
  { unfold ParseUint. destruct s; [done|]. by apply (ParseUint_from_nondigit c). }
  assert (Hcs : ParseUint (String c0 s) = None).
  { unfold ParseUint. apply (ParseUint_from_nondigit c); [|done]. by right. }
  destruct (Ascii.eqb c0 "+" || Ascii.eqb c0 "-"); by rewrite ?Hs, ?Hcs.
Qed.

(** What [ParseInt] accepts fits a signed 64-bit integer. *)
Lemma ParseInt_range (s : string) (n : Z) :
  ParseInt s = Some n → - 2 ^ 63 ≤ n ≤ 2 ^ 63 - 1.
Proof.
  assert (Hpos : ∀ (s : string) (acc m : Z), 0 ≤ acc → ParseUint_from acc s = Some m → 0 ≤ m).
  { clear. intros s0. induction s0 as [|c s0 IH]; intros acc m Hacc; cbn.
    - intros [= <-]. done.
    - unfold digit. destruct (_ && _) eqn:Hd; [|done].
      apply andb_prop in Hd as [?%Z.leb_le ?%Z.leb_le]. apply IH. lia. }
  assert (Hu : ∀ (s : string) (m : Z), ParseUint s = Some m → 0 ≤ m).
  { intros [|c0 s0] m; [done|]. by apply (Hpos _ 0 m). }
  unfold ParseInt. destruct s as [|c s]; [done|]. cbv zeta.
  destruct (ParseUint _) as [un|] eqn:Hun; [|done].
  apply Hu in Hun.
  destruct (Ascii.eqb c "-"); cbn [negb andb].
  - destruct (2 ^ 63 <? un) eqn:Hlt; [done|]. apply Z.ltb_ge in Hlt.
    intros [= <-]. lia.
  - destruct (2 ^ 63 <=? un) eqn:Hle; [done|]. apply Z.leb_gt in Hle.
    intros [= <-]. lia.
Qed.

(** The error path of [acquire] returns before [kvLock.Unlock()]: the
    guard stays held by a writer. *)
Lemma acquire_invalid_duration_keeps_guard
    (st : state) (key duration value cuid : string) :
  kvLock st = free → ParseInt duration = None →
  acquire key duration value cuid st
  = Done (HttpError 500) (with_kvLock (mkRWMutex true 0) st).
Proof. intros Hfree Hd. unfold acquire. enter Hfree. by rewrite Hd. Qed.

(** While a writer holds the guard no event makes progress. *)
Lemma held_guard_blocks (st : state) (e : event) :
  writer (kvLock st) = true → exec e st = Wait.
Proof.
  intros Hw.
  assert (HL : Lock (kvLock st) = None) by (unfold Lock; by rewrite Hw).
  assert (HR : RLock (kvLock st) = None) by (unfold RLock; by rewrite Hw).
  destruct e; cbn [exec];
    unfold acquire, release, set, get, listKeys, renew, destroy;
    rewrite ?HL, ?HR; try done.
  destruct (timers st !! h); [|done]. unfold expiry. by rewrite HL.
Qed.


(** ** Authorized set *)

(** What the authorized [set] does when the key has an entry. *)
Lemma set_authorized_with_entry
    (st : state) (key value sessionId : string) (v : lockableValue) :
  kvLock st = free → sessionId ≠ EmptyString → kvs st !! key = Some v →
  (leases sessionId key st →
     set key value sessionId st
     = Done (SetReturn true)
            (with_kvs (<[key := mkLockableValue value (IsLocked v)]> (kvs st)) st))
  ∧ (¬ leases sessionId key st →
       set key value sessionId st = Done (SetReturn false) st).
Proof.
  intros Hfree Hne Hk. unfold set, leases. enter Hfree.
  rewrite (eqb_string_false _ _ Hne). cbn [negb].
  rewrite with_kvLock_free by done.
  destruct (sessions st !! sessionId) as [s|] eqn:Hs;
    [destruct (String.eqb_spec (Key s) key) as [Heq|Hneq]|].
  - rewrite Hk. split; [|intros Hno; exfalso; apply Hno; by exists s].
    intros _. f_equal. destruct st; cbn in *. by subst.
  - split; [|done]. intros (s' & [= <-] & ?). done.
  - split; [|done]. intros (s' & ? & _). done.
Qed.

(** C6 fails on the program.  After the run [Scenario.orphaned] the
    session "s0" is registered and leases "k", the guard is free and "k"
    has no entry: the authorized [set] of "k" by "s0" dereferences the nil
    entry and panics, answering nothing and leaving the guard held. *)
Theorem set_authorized_panics_without_entry :
  reachable Scenario.after_destroy
  ∧ kvLock Scenario.after_destroy = free
  ∧ leases "s0" "k" Scenario.after_destroy
  ∧ set "k" "x" "s0" Scenario.after_destroy
    = Panic (with_kvLock (mkRWMutex true 0) Scenario.after_destroy).
Proof.
  split; [apply reachable_after_destroy|]. split; [reflexivity|]. split.
  - eexists. split; reflexivity.
  - vm_compute. reflexivity.
Qed.

(** C10 fails on the program.  The run [Scenario.orphaned] (acquire by
    "s0", release by "s0", acquire by "s1", destroy of "s1") reaches a
    state with the guard free in which "s0" is registered and the entry of
    its key "k" is gone. *)
Theorem session_outlives_entry :
  run Scenario.orphaned init = Some Scenario.after_destroy
  ∧ reachable Scenario.after_destroy
  ∧ kvLock Scenario.after_destroy = free
  ∧ sessions Scenario.after_destroy !! "s0"%string
    = Some (mkSession "s0" "k" (Some 0%nat))
  ∧ kvs Scenario.after_destroy !! "k"%string = None
  ∧ ¬ session_keys_present Scenario.after_destroy.
Proof.
  split; [apply run_orphaned|]. split; [apply reachable_after_destroy|].
  split; [reflexivity|]. split; [reflexivity|]. split; [reflexivity|].
  intros Hinv.
  destruct (Hinv "s0"%string (mkSession "s0" "k" (Some 0%nat))) as [v Hv];
    [reflexivity|]. vm_compute in Hv. done.
Qed.

(** ** The theorems at concrete states *)

Lemma set_unauthenticated_creates_only_witness :
  kvLock init = free
  ∧ set "k" "v" EmptyString init
    = Done (SetReturn true)
           (with_kvs (<[ "k"%string := mkLockableValue "v" false ]> (kvs init)) init).
Proof.
  split; [reflexivity|].
  exact (proj2 (set_unauthenticated_creates_only init "k" "v" eq_refl)).
Defined.

Lemma release_clears_only_the_flag_witness :
  kvLock Scenario.after_acquire = free
  ∧ (may_release "k" "s0" Scenario.after_acquire ↔
       answer (release "k" "s0" Scenario.after_acquire) = Some (ReleaseReturn true))
  ∧ ¬ may_release "k" "s1" Scenario.after_acquire.
Proof.
  split; [reflexivity|]. split.
  - exact (proj1 (release_clears_only_the_flag Scenario.after_acquire "k" "s0" eq_refl)).
  - intros Hmay.
    apply (proj1 (release_clears_only_the_flag Scenario.after_acquire "k" "s1" eq_refl))
      in Hmay.
    vm_compute in Hmay. discriminate Hmay.
Defined.

Lemma acquire_excludes_while_locked_witness :
  kvLock Scenario.after_acquire = free
  ∧ ParseInt "60000000000" = Some 60000000000
  ∧ locked "k" Scenario.after_acquire
  ∧ acquire "k" "60000000000" "x" "s1" Scenario.after_acquire
    = Done (AcquireReturn "s1" false) Scenario.after_acquire.
Proof.
  assert (Hl : locked "k" Scenario.after_acquire).
  { exists (mkLockableValue "v" true). split; reflexivity. }
  split; [reflexivity|]. split; [reflexivity|]. split; [exact Hl|].
  exact (proj1 (acquire_excludes_while_locked
                  Scenario.after_acquire "k" "60000000000" "x" "s1" 60000000000 eq_refl eq_refl) Hl).
Defined.



(** * The server with callbacks in flight *)

(** ** Sessions and callbacks *)

Section ServerInvariant.
Variable st : state.
Variable fl : gmap nat timer.
Hypothesis Hwf : swf st fl.

Lemma callback_unique (h : nat) (t t' : timer) :
  callback st fl h t → callback st fl h t' → t = t'.
Proof.
  destruct Hwf as [_ _ Hd _ _].
  intros [H1|H1] [H2|H2]; try congruence.
  - apply Hd in H2. congruence.
  - apply Hd in H1. congruence.
Qed.

(** No two registered sessions hold the same timer handle. *)
Lemma swf_owner (sid sid' : string) (s s' : session) (h : nat) :
  sessions st !! sid = Some s → Timer s = Some h →
  sessions st !! sid' = Some s' → Timer s' = Some h → sid = sid'.
Proof.
  intros H1 T1 H2 T2.
  destruct (wf_armed st fl Hwf sid s H1) as (h1 & t1 & E1 & C1 & I1).
  destruct (wf_armed st fl Hwf sid' s' H2) as (h2 & t2 & E2 & C2 & I2).
  assert (h1 = h) as -> by congruence. assert (h2 = h) as -> by congruence.
  rewrite <- I1, <- I2. f_equal. by apply (callback_unique h).
Qed.

Lemma swf_same (st' : state) :
  sessions st' = sessions st → timers st' = timers st →
  next_timer st' = next_timer st → swf st' fl.
Proof.
  destruct Hwf as [Hi Hf Hd Ha Hc]. intros Es Et En.
  split; unfold ids_agree, callback in *; rewrite ?Es, ?Et, ?En; done.
Qed.

(** A session leaves the registry and its handle the pending timers:
    [destroy], and the callback of a timer still pending. *)
Lemma swf_remove (st' : state) (sid : string) (s : session) (h : nat) :
  sessions st !! sid = Some s → Timer s = Some h →
  sessions st' = delete sid (sessions st) →
  timers st' = delete h (timers st) →
  next_timer st' = next_timer st →
  swf st' fl.
Proof.
  pose proof swf_owner as Hown.
  destruct Hwf as [Hi Hf Hd Ha Hc]. intros Hsid Htimer Es Et En.
  assert (Hsub : ∀ h' t, callback st' fl h' t → callback st fl h' t).
  { intros h' t [Hp|Hs]; [left|by right]. rewrite Et in Hp.
    by apply lookup_delete_Some in Hp as [_ ?]. }
  split.
  - intros sid' s'. rewrite Es. intros [_ ?]%lookup_delete_Some. by apply Hi.
  - intros h' t Hcb. rewrite En. by apply (Hf h' t), Hsub.
  - intros h' t Hfl. rewrite Et. apply lookup_delete_None. right. by apply (Hd h' t).
  - intros sid' s'. rewrite Es. intros [Hne Hsid']%lookup_delete_Some.
    destruct (Ha sid' s' Hsid') as (h' & t' & E' & C' & I').
    exists h', t'. split; [done|]. split; [|done].
    destruct C' as [Hp|Hs]; [left|by right].
    rewrite Et, lookup_delete_ne; [done|]. intros <-. apply Hne.
    by apply (Hown sid sid' s s' h).
  - intros h' t s' Hcb. rewrite Es. intros [_ Hs']%lookup_delete_Some.
    apply (Hc h' t s'); [by apply Hsub|done].
Qed.

(** [startTimer] on a registered session. *)
Lemma swf_startTimer (duration : Z) (sid : string) (s : session) :
  sessions st !! sid = Some s → swf (startTimer duration sid s st) fl.
Proof.
  pose proof swf_owner as Hown.
  destruct Hwf as [Hi Hf Hd Ha Hc]. intros Hsid.
  assert (Hid : ID s = sid) by by apply Hi.
  destruct (Ha sid s Hsid) as (h0 & t0 & E0 & C0 & I0).
  unfold startTimer. rewrite E0, Hid.
  assert (Hold : ∀ h' t,
            callback (mkState (kvs st) (<[sid := mkSession sid (Key s) (Some (next_timer st))]>
                                          (sessions st))
                              (kvLock st)
                              (<[next_timer st := mkTimer duration (Key s) sid]>
                                 (delete h0 (timers st)))
                              (S (next_timer st))) fl h' t →
            (h' = next_timer st ∧ t = mkTimer duration (Key s) sid)
            ∨ (h' ≠ next_timer st ∧ callback st fl h' t
               ∧ (timers st !! h' = Some t → h' ≠ h0))).
  { intros h' t [Hp|Hs]; [cbn in Hp|].
    - apply lookup_insert_Some in Hp as [[<- <-]|[Hne Hp]]; [by left|].
      apply lookup_delete_Some in Hp as [Hne0 Hp]. right.
      split; [done|]. split; [by left|done].
    - right. pose proof (Hf h' t (or_intror Hs)). split; [lia|].
      split; [by right|]. intros Hp. apply Hd in Hs. congruence. }
  split; unfold ids_agree; cbn.
  - intros sid' s'. intros [[<- <-]|[_ Hs']]%lookup_insert_Some; [done|by apply Hi].
  - intros h' t Hcb. destruct (Hold h' t Hcb) as [[-> _]|(_ & Hcb' & _)]; [lia|].
    pose proof (Hf h' t Hcb'). lia.
  - intros h' t Hfl. pose proof (Hf h' t (or_intror Hfl)).
    rewrite lookup_insert_ne by lia. apply lookup_delete_None. right. by apply (Hd h' t).
  - intros sid' s'. intros [[<- <-]|[Hne Hs']]%lookup_insert_Some; cbn.
    + exists (next_timer st), (mkTimer duration (Key s) sid).
      split; [done|]. split; [|done]. left. cbn. apply lookup_insert_eq.
    + destruct (Ha sid' s' Hs') as (h' & t' & E' & C' & I').
      exists h', t'. split; [done|]. split; [|done].
      destruct C' as [Hp|Hs]; [left|by right]. cbn.
      pose proof (Hf h' t' (or_introl Hp)).
      rewrite lookup_insert_ne by lia. rewrite lookup_delete_ne; [done|].
      intros <-. apply Hne. by apply (Hown sid sid' s s' h0).
  - intros h' t s1 Hcb. destruct (Hold h' t Hcb) as [[-> ->]|(_ & Hcb' & _)]; cbn.
    + rewrite lookup_insert_eq. by intros [= <-].
    + intros [[Heq <-]|[Hne Hs1]]%lookup_insert_Some; cbn.
      * apply (Hc h' t s); [done|]. by rewrite <- Heq.
      * by apply (Hc h' t s1).
Qed.

(** A successful [acquire] under an identifier that was never used. *)
Lemma swf_acquire (key cuid : string) (v : string) (interval : Z) (l : RWMutex) :
  sessions st !! cuid = None →
  (∀ h t, callback st fl h t → tID t ≠ cuid) →
  swf (mkState (<[key := mkLockableValue v true]> (kvs st))
               (<[cuid := mkSession cuid key (Some (next_timer st))]> (sessions st))
               l
               (<[next_timer st := mkTimer interval key cuid]> (timers st))
               (S (next_timer st)))
      fl.
Proof.
  destruct Hwf as [Hi Hf Hd Ha Hc]. intros Hfresh Hnew.
  assert (Hold : ∀ h' t,
            callback (mkState (<[key := mkLockableValue v true]> (kvs st))
                              (<[cuid := mkSession cuid key (Some (next_timer st))]>
                                 (sessions st))
                              l
                              (<[next_timer st := mkTimer interval key cuid]> (timers st))
                              (S (next_timer st))) fl h' t →
            (h' = next_timer st ∧ t = mkTimer interval key cuid)
            ∨ (h' ≠ next_timer st ∧ callback st fl h' t)).
  { intros h' t [Hp|Hs]; [cbn in Hp|].
    - apply lookup_insert_Some in Hp as [[<- <-]|[Hne Hp]]; [by left|].
      right. split; [done|by left].
    - right. pose proof (Hf h' t (or_intror Hs)). split; [lia|by right]. }
  split; unfold ids_agree; cbn.
  - intros sid s. intros [[<- <-]|[_ Hs']]%lookup_insert_Some; [done|by apply Hi].
  - intros h' t Hcb. destruct (Hold h' t Hcb) as [[-> _]|(_ & Hcb')]; [lia|].
    pose proof (Hf h' t Hcb'). lia.
  - intros h' t Hfl. pose proof (Hf h' t (or_intror Hfl)).
    rewrite lookup_insert_ne by lia. by apply (Hd h' t).
  - intros sid s. intros [[<- <-]|[Hne Hs']]%lookup_insert_Some; cbn.
    + exists (next_timer st), (mkTimer interval key cuid).
      split; [done|]. split; [|done]. left. cbn. apply lookup_insert_eq.
    + destruct (Ha sid s Hs') as (h' & t' & E' & C' & I').
      exists h', t'. split; [done|]. split; [|done].
      destruct C' as [Hp|Hs]; [left|by right]. cbn.
      pose proof (Hf h' t' (or_introl Hp)). by rewrite lookup_insert_ne by lia.
  - intros h' t s1 Hcb. destruct (Hold h' t Hcb) as [[-> ->]|(_ & Hcb')]; cbn.
    + rewrite lookup_insert_eq. by intros [= <-].
    + rewrite lookup_insert_ne by (intros Heq; by apply (Hnew h' t)).
      by apply (Hc h' t s1).
Qed.

(** A pending timer fires: its callback is in flight. *)
Lemma swf_fire (h : nat) (t : timer) :
  timers st !! h = Some t →
  swf (with_timers (delete h (timers st)) st) (<[h := t]> fl).
Proof.
  destruct Hwf as [Hi Hf Hd Ha Hc]. intros Ht.
  assert (Hiff : ∀ h' t', callback (with_timers (delete h (timers st)) st) (<[h := t]> fl) h' t'
                          ↔ callback st fl h' t').
  { intros h' t'. unfold callback. cbn. destruct (decide (h = h')) as [<-|Hne].
    - rewrite lookup_delete_eq, lookup_insert_eq. split.
      + intros [?|[= <-]]; [done|by left].
      + intros [?|Hs]; [right; congruence|]. apply Hd in Hs. congruence.
    - by rewrite lookup_delete_ne, lookup_insert_ne. }
  split; unfold ids_agree.
  - exact Hi.
  - intros h' t' Hcb. by apply (Hf h' t'), Hiff.
  - intros h' t'. cbn. intros [[<- <-]|[Hne Hs]]%lookup_insert_Some.
    + apply lookup_delete_eq.
    + rewrite lookup_delete_ne by done. by apply (Hd h' t').
  - intros sid s Hs. destruct (Ha sid s Hs) as (h' & t' & E' & C' & I').
    exists h', t'. split; [done|]. split; [by apply Hiff|done].
  - intros h' t' s Hcb. apply (Hc h' t' s). by apply Hiff.
Qed.

(** A callback in flight runs: it leaves, with the session under the
    captured id. *)
Lemma swf_run (st' : state) (h : nat) (t : timer) :
  fl !! h = Some t →
  sessions st' = delete (tID t) (sessions st) →
  timers st' = delete h (timers st) →
  next_timer st' = next_timer st →
  swf st' (delete h fl).
Proof.
  destruct Hwf as [Hi Hf Hd Ha Hc]. intros Hfl Es Et En.
  assert (Hpending : timers st' = timers st).
  { rewrite Et. apply delete_id. by apply (Hd h t). }
  assert (Hsub : ∀ h' t', callback st' (delete h fl) h' t' → h' ≠ h ∧ callback st fl h' t').
  { intros h' t' [Hp|Hs].
    - rewrite Hpending in Hp. split; [|by left]. intros ->.
      apply Hd in Hfl. congruence.
    - apply lookup_delete_Some in Hs as [? ?]. split; [done|by right]. }
  split.
  - intros sid' s'. rewrite Es. intros [_ ?]%lookup_delete_Some. by apply Hi.
  - intros h' t' Hcb. rewrite En. apply (Hf h' t'). by apply Hsub.
  - intros h' t'. rewrite Hpending. intros [_ Hs]%lookup_delete_Some. by apply (Hd h' t').
  - intros sid' s'. rewrite Es. intros [Hne Hsid']%lookup_delete_Some.
    destruct (Ha sid' s' Hsid') as (h' & t' & E' & C' & I').
    exists h', t'. split; [done|]. split; [|done].
    assert (h' ≠ h).
    { intros ->. apply Hne. rewrite <- I'. f_equal.
      by apply (callback_unique h); [right|]. }
    destruct C' as [Hp|Hs]; [left; by rewrite Hpending|right].
    by rewrite lookup_delete_ne.
  - intros h' t' s' Hcb. rewrite Es. intros [_ Hs']%lookup_delete_Some.
    apply (Hc h' t' s'); [|done]. by apply Hsub.
Qed.

End ServerInvariant.

Lemma swf_boot : swf (shared boot) (started boot).
Proof.
  split; unfold ids_agree, callback; cbn.
  - intros sid s. by rewrite lookup_empty.
  - intros h t. rewrite !lookup_empty. by intros [?|?].
  - intros h t. by rewrite lookup_empty.
  - intros sid s. by rewrite lookup_empty.
  - intros h t s. rewrite !lookup_empty. by intros [?|?].
Qed.

Lemma swf_with_kvLock (l : RWMutex) (st : state) (fl : gmap nat timer) :
  swf st fl → swf (with_kvLock l st) fl.
Proof. intros Hwf. by apply (swf_same st). Qed.

(** A request, whatever its outcome, keeps sessions and callbacks
    well formed. *)
Lemma swf_exec (st : state) (fl : gmap nat timer) (e : event) (st' : state) :
  swf st fl →
  match e with
  | EAcquire _ _ _ cuid =>
      sessions st !! cuid = None ∧ ∀ h t, callback st fl h t → tID t ≠ cuid
  | EExpire _ => False
  | _ => True
  end →
  final (exec e st) = Some st' → swf st' fl.
Proof.
  intros Hwf Hen Hfin. destruct e; cbn in Hfin; [| | | | | | |done].
  - (* acquire *)
    destruct Hen as [Hfresh Hnew].
    destruct (Lock (kvLock st)) as [l|] eqn:HL;
      [|by unfold acquire in Hfin; rewrite HL in Hfin].
    apply Lock_Some in HL as [Hfree ->].
    destruct (ParseInt duration) as [interval|] eqn:Hd.
    + destruct (locked_or_not key st) as [Hl|Hun].
      * rewrite (acquire_locked st key duration value cuid interval) in Hfin by done.
        by injection Hfin as <-.
      * rewrite (acquire_unlocked st key duration value cuid interval) in Hfin by done.
        injection Hfin as <-. by apply swf_acquire.
    + unfold acquire in Hfin. rewrite Hfree, Lock_free, Hd in Hfin.
      injection Hfin as <-. by apply swf_with_kvLock.
  - unfold release in Hfin. repeat case_match; simplify_eq; cbn [final] in *; simplify_eq;
      by apply (swf_same st).
  - unfold set in Hfin. repeat case_match; simplify_eq; cbn [final] in *; simplify_eq;
      by apply (swf_same st).
  - unfold get in Hfin. repeat case_match; simplify_eq; cbn [final] in *; simplify_eq;
      by apply swf_with_kvLock.
  - unfold listKeys in Hfin. repeat case_match; simplify_eq; cbn [final] in *; simplify_eq;
      by apply swf_with_kvLock.
  - unfold renew in Hfin. repeat case_match; simplify_eq; cbn [final] in *; simplify_eq;
      apply swf_with_kvLock; try done.
    by apply swf_startTimer.
  - unfold destroy in Hfin. repeat case_match; simplify_eq; cbn [final] in *; simplify_eq;
      try (by apply swf_with_kvLock).
    by eapply (swf_remove st fl Hwf _ sessionId).
Qed.

(** The shared state after a request that is served at the server. *)
Lemma sexec_req (srv : server) (e : event) :
  (∀ h, e ≠ EExpire h) →
  (sfinal (sexec (SReq e) srv)
   = mkServer (shared srv) (started srv) (queued srv || negb (is_read e))
   ∧ (exec e (shared srv) = Wait ∨ (is_read e = true ∧ queued srv = true)))
  ∨ (∃ st', final (exec e (shared srv)) = Some st'
            ∧ sfinal (sexec (SReq e) srv) = mkServer st' (started srv) (queued srv)
            ∧ (is_read e = true → queued srv = false)).
Proof.
  intros Hne. destruct srv as [st fl q].
  destruct e; try (by destruct (Hne h)); cbn -[exec];
    try (destruct q; [left; split; [done|by right]|]);
    (destruct (exec _ st) as [r st'|st'|] eqn:He; cbn;
     [right; by eexists|right; by eexists|left; split; [|by left]]);
    by rewrite ?orb_true_r, ?orb_false_r.
Qed.

Lemma swf_step (srv : server) (e : sevent) (srv' : server) :
  swf (shared srv) (started srv) → sstep srv e srv' →
  swf (shared srv') (started srv').
Proof.
  intros Hwf [Hen <-]. destruct e as [e|h|h].
  - assert (Hne : ∀ h, e ≠ EExpire h) by (intros h ->; exact Hen).
    destruct (sexec_req srv e Hne) as [[-> _]|(st' & Hfin & -> & _)]; [done|].
    cbn. apply (swf_exec (shared srv) (started srv) e st'); [done| |done].
    by destruct e.
  - cbn in Hen |- *. destruct (timers (shared srv) !! h) as [t|] eqn:Ht; [|done].
    cbn. by apply swf_fire.
  - cbn in Hen |- *. destruct (started srv !! h) as [t|] eqn:Ht; [|done].
    unfold expiry. destruct (Lock (kvLock (shared srv))) as [l|]; [|done].
    cbn. by apply (swf_run (shared srv) (started srv) Hwf _ h t).
Qed.

Lemma swf_sreachable (srv : server) :
  sreachable srv → swf (shared srv) (started srv).
Proof.
  induction 1 as [|srv e srv' _ IH Hstep]; [apply swf_boot|].
  by apply (swf_step srv e srv').
Qed.

(** ** The lease invariant on the server *)

(** No request stops or arms a timer under a handle that is neither
    pending nor the next one, and handles only grow. *)
Lemma exec_timers (st : state) (e : event) (st' : state) :
  final (exec e st) = Some st' →
  (next_timer st ≤ next_timer st')%nat
  ∧ ∀ h, timers st !! h = None → h ≠ next_timer st → timers st' !! h = None.
Proof.
  intros Hfin.
  destruct e; cbn [exec] in Hfin;
    unfold acquire, release, set, get, listKeys, renew, destroy, expiry, startTimer in Hfin;
    repeat case_match; simplify_eq; cbn [final] in *; simplify_eq; cbn;
    (split; [lia|]); intros h' Hnone Hne; try done.
  all: rewrite ?lookup_insert_ne by done.
  all: try done.
  all: apply lookup_delete_None; by right.
Qed.

Lemma lease_inv_fire (st : state) (h : nat) :
  lease_inv st → lease_inv (with_timers (delete h (timers st)) st).
Proof.
  intros [Hl Hi Ho Ht]. split; try done.
  intros h' t. cbn. intros [_ Hh']%lookup_delete_Some. by apply Ht.
Qed.

Lemma slease_inv_boot : slease_inv boot.
Proof.
  split; [apply lease_inv_init|]. intros h t. cbn. by rewrite lookup_empty.
Qed.

(** One event of the server other than a release and the run of a
    callback that is no longer current. *)
Lemma slease_inv_step (srv : server) (e : sevent) (srv' : server) :
  slease_inv srv → sstep srv e srv' → keeps_lease srv e → slease_inv srv'.
Proof.
  intros [Hinv Hapart] [Hen <-] Hkeep. destruct e as [e|h|h].
  - assert (Hne : ∀ h, e ≠ EExpire h) by (intros h ->; exact Hen).
    destruct (sexec_req srv e Hne) as [[-> _]|(st' & Hfin & -> & _)]; [by split|].
    assert (Hstep : step (shared srv) e st').
    { split; [|done]. destruct e; try done. by destruct Hen. }
    destruct (exec_timers (shared srv) e st' Hfin) as [Hmono Hnone].
    split; cbn.
    + by apply (lease_inv_step (shared srv) e st').
    + intros h t Hs. destruct (Hapart h t Hs) as [Hp Hlt].
      split; [apply Hnone; [done|lia]|lia].
  - cbn in Hen |- *. destruct (timers (shared srv) !! h) as [t|] eqn:Ht; [|by split].
    split; cbn.
    + by apply lease_inv_fire.
    + intros h' t'. intros [[<- <-]|[Hne Hs]]%lookup_insert_Some.
      * split; [apply lookup_delete_eq|]. by destruct (inv_timers _ Hinv h t Ht).
      * destruct (Hapart h' t' Hs) as [Hp Hlt]. split; [|done].
        apply lookup_delete_None. by right.
  - destruct Hkeep as (t & s & Ht & Hs & Htimer & Hkey).
    cbn. rewrite Ht. unfold expiry.
    destruct (Lock (kvLock (shared srv))) as [l|]; [|by split].
    split; cbn.
    + apply (lease_inv_remove (shared srv) Hinv _ (tID t) s h); try done.
      cbn. by rewrite Hkey.
    + intros h' t'. intros [Hne Hs']%lookup_delete_Some.
      destruct (Hapart h' t' Hs') as [Hp Hlt]. split; [|done].
      apply lookup_delete_None. by right.
Qed.

(** C2, as the program has it.  That the key of every registered session
    has a locked entry holds when the server starts ([slease_inv_boot])
    and, together with the bookkeeping it rests on (a session is
    registered under its own id, no two registered sessions lease one key,
    a pending timer is the current timer of the registered session it
    captured, a callback in flight is not pending), is preserved along
    every run of the server whose events are: a request other than a
    release, that is an acquire under an unused id, a set, a get, a key
    listing, a renew or a destroy, whatever its outcome; a timer firing;
    and the run of a callback whose session is still registered and has
    not been renewed since the timer fired. *)
Theorem lease_inv_preserved (srv : server) (es : list sevent) (srv' : server) :
  slease_inv srv → strace keeps_lease srv es srv' → slease_inv srv'.
Proof.
  intros Hinv Htr. revert Hinv.
  induction Htr as [|srv e srv1 es srv2 Hkeep Hstep _ IH]; [done|].
  intros Hinv. apply IH. by apply (slease_inv_step srv e srv1).
Qed.

(** ** Runs without a request between firing and callback *)

(** A state reached with every callback running as its timer fires is a
    state of the server, with nothing in flight and no writer waiting. *)
Lemma reachable_sreachable (st : state) :
  reachable st → sreachable (mkServer st ∅ false).
Proof.
  induction 1 as [|st e st' Hreach IH [Hen Hfin]]; [apply sreach_boot|].
  assert (Hcase : (∃ h, e = EExpire h) ∨ ∀ h, e ≠ EExpire h)
    by (destruct e; first [by right|left; by eexists]).
  destruct Hcase as [[h ->]|Hne'].
  - cbn in Hfin. destruct (timers st !! h) as [t|] eqn:Ht; [|done].
    unfold expiry in Hfin. destruct (Lock (kvLock st)) as [l|] eqn:HL; [|done].
    injection Hfin as <-.
    apply (sreach_step
             (mkServer (with_timers (delete h (timers st)) st) {[ h := t ]} false)
             (SRun h)).
    + apply (sreach_step (mkServer st ∅ false) (SFire h)); [done|].
      split; [by eexists|]. cbn. rewrite Ht. cbn. by rewrite insert_empty.
    + split; [cbn; rewrite lookup_singleton_eq; by eexists|].
      cbn. rewrite lookup_singleton_eq. unfold expiry. cbn. rewrite HL. cbn.
      by rewrite delete_delete_eq, delete_singleton_eq.
  - apply (sreach_step (mkServer st ∅ false) (SReq e)); [done|]. split.
    + destruct e; try done; [|by destruct (Hne' h)].
      split; [done|]. intros h t [Ht|Ht]; cbn in Ht; [|by rewrite lookup_empty in Ht].
      destruct (tinv_timers st (timer_inv_reachable st Hreach) h t Ht)
        as (_ & s & Hs & _).
      cbn in Hen. congruence.
    + destruct (sexec_req (mkServer st ∅ false) e Hne')
        as [[_ [Hw|[_ Hq]]]|(st1 & Hfin1 & -> & _)]; cbn in *.
      * by rewrite Hw in Hfin.
      * done.
      * congruence.
Qed.

Ltac concrete_sstep :=
  split; [unfold senabled, callback; cbn [shared started];
          repeat split; try done;
          try (intros ? ? [?|?]; simplify_map_eq; done);
          try (vm_compute; by eexists)
         |vm_compute; reflexivity].

Lemma sreachable_fired : sreachable Race.fired.
Proof.
  apply (sreach_step (mkServer Scenario.after_acquire ∅ false) (SFire 0)).
  - apply reachable_sreachable, reachable_after_acquire.
  - concrete_sstep.
Qed.

Lemma sreachable_destroyed_late : sreachable Race.destroyed_late.
Proof.
  apply (sreach_step Race.fired (SReq (EDestroy "s0"))); [apply sreachable_fired|].
  concrete_sstep.
Qed.

Lemma sreachable_reacquired : sreachable Race.reacquired.
Proof.
  apply (sreach_step Race.destroyed_late (SReq (EAcquire "k" "60000000000" "w" "s1")));
    [apply sreachable_destroyed_late|].
  split; [|vm_compute; reflexivity]. split; [reflexivity|].
  intros h t [Ht|Ht]; cbn in Ht.
  - by rewrite lookup_empty in Ht.
  - apply lookup_singleton_Some in Ht as [_ <-]. discriminate.
Qed.

(** With [Stop] late the invariant of C2 fails without any release: the
    callback of a destroyed session deletes the entry another session has
    taken since. *)
Lemma late_callback_orphans_session :
  sreachable Race.orphaned
  ∧ ¬ session_keys_present (shared Race.orphaned).
Proof.
  split.
  - apply (sreach_step Race.reacquired (SRun 0)); [apply sreachable_reacquired|].
    concrete_sstep.
  - intros Hinv.
    destruct (Hinv "s1"%string (mkSession "s1" "k" (Some 1%nat))) as [v Hv];
      [reflexivity|]. vm_compute in Hv. done.
Qed.

(** ** Destroy *)

(** C8, as the specification words it, fails: the session "s0" is
    registered and its timer has fired; [destroy] removes the session and
    the entry of its key, but its call of [Stop] comes too late to cancel
    the timer: the callback is still in flight afterwards, and it runs. *)
Lemma destroy_after_fire_leaves_callback :
  sreachable Race.fired
  ∧ sessions (shared Race.fired) !! "s0"%string = Some (mkSession "s0" "k" (Some 0%nat))
  ∧ sexec (SReq (EDestroy "s0")) Race.fired = SDone NoBody Race.destroyed_late
  ∧ started Race.destroyed_late !! 0%nat = Some (mkTimer 60000000000 "k" "s0")
  ∧ sexec (SRun 0) Race.destroyed_late = SDone NoBody (mkServer (mkState ∅ ∅ free ∅ 1) ∅ false).
Proof.
  split; [apply sreachable_fired|]. split; [reflexivity|].
  split; [vm_compute; reflexivity|]. split; [reflexivity|].
  vm_compute. reflexivity.
Qed.

(** C8, as the program has it.  In a state the server can reach, with the
    guard free: when the session is registered, its timer handle is not
    nil and its callback, pending or in flight, captured the session's id
    and key; [destroy] takes the handle out of the pending timers, which
    cancels the timer if it had not fired and leaves a callback already
    in flight where it is, deletes the entry of the session's key, value
    included, so that [get] on the key reports not-found, and deletes the
    session.  When the session is not registered, [destroy] answers
    without an error and the state is unchanged. *)
Theorem destroy_removes_session_and_key (srv : server) (sessionId : string) :
  sreachable srv → kvLock (shared srv) = free →
  match sessions (shared srv) !! sessionId with
  | Some s =>
      ∃ h t st',
        Timer s = Some h
        ∧ callback (shared srv) (started srv) h t
        ∧ tID t = sessionId ∧ tKey t = Key s
        ∧ destroy sessionId (shared srv) = Done NoBody st'
        ∧ st' = mkState (delete (Key s) (kvs (shared srv)))
                        (delete sessionId (sessions (shared srv)))
                        free (delete h (timers (shared srv)))
                        (next_timer (shared srv))
        ∧ sexec (SReq (EDestroy sessionId)) srv
          = SDone NoBody (mkServer st' (started srv) (queued srv))
        ∧ timers st' !! h = None
        ∧ get (Key s) st' = Done (GetReturn false EmptyString EmptyString) st'
  | None =>
      destroy sessionId (shared srv) = Done NoBody (shared srv)
      ∧ sexec (SReq (EDestroy sessionId)) srv = SDone NoBody srv
  end.
Proof.
  intros Hreach Hfree.
  pose proof (swf_sreachable srv Hreach) as Hwf.
  destruct (sessions (shared srv) !! sessionId) as [s|] eqn:Hs.
  - destruct (wf_armed _ _ Hwf sessionId s Hs) as (h & t & Hh & Hcb & Hid).
    assert (Hkey : Key s = tKey t).
    { apply (wf_captured _ _ Hwf h t s Hcb). by rewrite Hid. }
    assert (Hdes : destroy sessionId (shared srv)
                   = Done NoBody
                       (mkState (delete (Key s) (kvs (shared srv)))
                                (delete sessionId (sessions (shared srv)))
                                free (delete h (timers (shared srv)))
                                (next_timer (shared srv)))).
    { unfold destroy. enter Hfree. by rewrite Hs, Hh. }
    exists h, t. eexists. split; [done|]. split; [done|]. split; [done|].
    split; [done|]. split; [exact Hdes|]. split; [reflexivity|].
    split; [|split].
    + cbn [sexec is_read exec]. by rewrite Hdes.
    + cbn. apply lookup_delete_eq.
    + apply get_absent; [done|]. cbn. apply lookup_delete_eq.
  - assert (Hdes : destroy sessionId (shared srv) = Done NoBody (shared srv)).
    { unfold destroy. enter Hfree. rewrite Hs. by rewrite with_kvLock_free. }
    split; [exact Hdes|]. cbn [sexec is_read exec]. rewrite Hdes. cbn. by destruct srv.
Qed.

Lemma destroy_removes_session_and_key_witness :
  sreachable Race.fired
  ∧ kvLock (shared Race.fired) = free
  ∧ ∃ h t st',
      Timer (mkSession "s0" "k" (Some 0%nat)) = Some h
      ∧ callback (shared Race.fired) (started Race.fired) h t
      ∧ destroy "s0" (shared Race.fired) = Done NoBody st'
      ∧ sexec (SReq (EDestroy "s0")) Race.fired
        = SDone NoBody (mkServer st' (started Race.fired) (queued Race.fired))
      ∧ timers st' !! h = None.
Proof.
  split; [apply sreachable_fired|]. split; [reflexivity|].
  pose proof (destroy_removes_session_and_key Race.fired "s0"
                sreachable_fired eq_refl) as H.
  change (sessions (shared Race.fired) !! "s0"%string)
    with (Some (mkSession "s0" "k" (Some 0%nat))) in H.
  destruct H as (h & t & st' & Hh & Hcb & _ & _ & Hdes & _ & Hsexec & Hgone & _).
  exists h, t, st'. repeat split; assumption.
Defined.

Lemma lease_inv_preserved_witness :
  slease_inv boot
  ∧ strace keeps_lease boot
      [SReq (EAcquire "k" "60000000000" "v" "s0"); SFire 0; SRun 0]
      (mkServer (mkState ∅ ∅ free ∅ 1) ∅ false)
  ∧ slease_inv (mkServer (mkState ∅ ∅ free ∅ 1) ∅ false).
Proof.
  assert (Htr : strace keeps_lease boot
                  [SReq (EAcquire "k" "60000000000" "v" "s0"); SFire 0; SRun 0]
                  (mkServer (mkState ∅ ∅ free ∅ 1) ∅ false)).
  { apply (strace_cons _ _ _ (mkServer Scenario.after_acquire ∅ false)).
    { reflexivity. }
    { split; [|vm_compute; reflexivity]. split; [reflexivity|].
      intros h t [Ht|Ht]; cbn in Ht; by rewrite lookup_empty in Ht. }
    apply (strace_cons _ _ _ Race.fired).
    { exact I. }
    { concrete_sstep. }
    apply (strace_cons _ _ _ (mkServer (mkState ∅ ∅ free ∅ 1) ∅ false)).
    { exists (mkTimer 60000000000 "k" "s0"), (mkSession "s0" "k" (Some 0%nat)).
      repeat split; reflexivity. }
    { concrete_sstep. }
    apply strace_nil. }
  split; [apply slease_inv_boot|]. split; [exact Htr|].
  exact (lease_inv_preserved boot _ _ slease_inv_boot Htr).
Defined.

(** * Further properties of the handlers *)

(** ** Listing keys, completely *)

Lemma eqb_substring_prefix (p key : string) :
  String.eqb (substring 0 (String.length p) key) p = String.prefix p key.
Proof.
  destruct (String.eqb_spec (substring 0 (String.length p) key) p) as [He|Hne].
  - symmetry. by apply String.prefix_correct.
  - destruct (String.prefix p key) eqn:Hp; [|done].
    by apply String.prefix_correct in Hp.
Qed.

Lemma keys_loop_spec (prefix : string) (order ret : list string) :
  keys_loop prefix order ret
  = if forallb (λ key, String.length prefix <=? String.length key)%nat order
    then Some (ret ++ List.filter (String.prefix prefix) order)
    else None.
Proof.
  revert ret.
  induction order as [|key rest IH]; intros ret; cbn [keys_loop forallb List.filter].
  - by rewrite app_nil_r.
  - destruct (String.eqb_spec prefix EmptyString) as [->|Hne]; cbn [negb].
    + rewrite IH. cbn [String.length Nat.leb andb].
      assert (String.prefix EmptyString key = true) as -> by by destruct key.
      destruct (forallb _ rest); [|done]. by rewrite <- app_assoc.
    + unfold slice_to.
      destruct (String.length prefix <=? String.length key)%nat; [|done].
      cbn [andb]. rewrite eqb_substring_prefix.
      destruct (String.prefix prefix key); rewrite IH;
        destruct (forallb _ rest); try done.
      by rewrite <- app_assoc.
Qed.

(** X1. With the guard free, the key listing either answers the keys that
    have the prefix, in the order visited, leaving the state as it was, or,
    when some visited key is shorter than the prefix, panics with the read
    lock held. *)
Theorem listKeys_filters_or_panics (st : state) (prefix : string) (order : list string) :
  kvLock st = free →
  listKeys prefix order st
  = if forallb (λ key, String.length prefix <=? String.length key)%nat order
    then Done (KeysReturn (List.filter (String.prefix prefix) order)) st
    else Panic (with_kvLock (mkRWMutex false 1) st).
Proof.
  intros Hfree. unfold listKeys. enter Hfree. rewrite keys_loop_spec.
  destruct (forallb _ order); [|done]. cbn [app]. by rewrite with_kvLock_free.
Qed.

Lemma listKeys_filters_or_panics_witness :
  kvLock Scenario.with_three_keys = free
  ∧ listKeys "a" ["ab"; "b"; "abc"]%string Scenario.with_three_keys
    = Done (KeysReturn ["ab"; "abc"]%string) Scenario.with_three_keys.
Proof.
  split; [reflexivity|].
  exact (listKeys_filters_or_panics Scenario.with_three_keys "a"
           ["ab"; "b"; "abc"]%string eq_refl).
Defined.

(** X2. When the key listing answers, the keys it returns are exactly the
    stored keys that have the prefix, each once. *)
Theorem listKeys_answers_stored_keys
    (st : state) (prefix : string) (order ret : list string) (st' : state) :
  kvLock st = free → range_of order st →
  listKeys prefix order st = Done (KeysReturn ret) st' →
  NoDup ret
  ∧ ∀ key, key ∈ ret ↔ is_Some (kvs st !! key) ∧ String.prefix prefix key = true.
Proof.
  intros Hfree Hrange Hlist.
  unfold listKeys in Hlist. rewrite Hfree in Hlist.
  cbn [RLock free writer readers] in Hlist. rewrite keys_loop_spec in Hlist.
  destruct (forallb _ order); [|done]. injection Hlist as <- _.
  assert (Hnd : NoDup order).
  { unfold range_of in Hrange. rewrite Hrange. apply NoDup_fst_map_to_list. }
  split.
  - apply NoDup_ListNoDup, List.NoDup_filter. by apply NoDup_ListNoDup.
  - intros key. rewrite list_elem_of_In, List.filter_In, <- list_elem_of_In.
    unfold range_of in Hrange. rewrite Hrange.
    rewrite list_elem_of_fmap. split.
    + intros [([k v] & -> & Hkv%elem_of_map_to_list) Hp]. split; [by eexists|done].
    + intros [[v Hv] Hp]. split; [|done]. exists (key, v).
      split; [done|]. by apply elem_of_map_to_list.
Qed.

Lemma listKeys_answers_stored_keys_witness :
  let order := (map_to_list (kvs Scenario.with_three_keys)).*1 in
  let ret := List.filter (String.prefix "a") order in
  kvLock Scenario.with_three_keys = free
  ∧ range_of order Scenario.with_three_keys
  ∧ listKeys "a" order Scenario.with_three_keys
    = Done (KeysReturn ret) Scenario.with_three_keys
  ∧ NoDup ret.
Proof.
  intros order ret.
  assert (Hlist : listKeys "a" order Scenario.with_three_keys
                  = Done (KeysReturn ret) Scenario.with_three_keys)
    by (vm_compute; reflexivity).
  split; [reflexivity|]. split; [unfold range_of; reflexivity|]. split; [exact Hlist|].
  exact (proj1 (listKeys_answers_stored_keys Scenario.with_three_keys "a" order ret
                  Scenario.with_three_keys eq_refl (reflexivity _) Hlist)).
Defined.

(** ** Values *)

(** X3. A successful acquire stores the supplied value only when the key
    had no entry: on a key that has an unlocked entry the stored value is
    kept, and [get] returns it. *)
Theorem acquire_keeps_stored_value
    (st : state) (key duration value cuid : string) (interval : Z) :
  kvLock st = free → ParseInt duration = Some interval → ¬ locked key st →
  ∃ st',
    acquire key duration value cuid st = Done (AcquireReturn cuid true) st'
    ∧ get key st'
      = Done (GetReturn true key
                (match kvs st !! key with Some v => Value v | None => value end))
             st'.
Proof.
  intros Hfree Hd Hun. eexists. split.
  - by apply (acquire_unlocked st key duration value cuid interval).
  - match goal with |- get _ ?s = _ => set (st' := s) end.
    assert (Hk : kvs st' !! key
                 = Some (mkLockableValue (default value (Value <$> kvs st !! key)) true))
      by apply lookup_insert_eq.
    rewrite (get_present st' key _ eq_refl Hk). cbn [Value].
    by destruct (kvs st !! key).
Qed.

Lemma acquire_keeps_stored_value_witness :
  kvLock Scenario.after_release = free
  ∧ ParseInt "60000000000" = Some 60000000000
  ∧ ¬ locked "k" Scenario.after_release
  ∧ ∃ st',
      acquire "k" "60000000000" "w" "s1" Scenario.after_release
      = Done (AcquireReturn "s1" true) st'
      ∧ get "k" st' = Done (GetReturn true "k" "v") st'.
Proof.
  assert (Hun : ¬ locked "k" Scenario.after_release).
  { intros (v & Hv & Hl). vm_compute in Hv. injection Hv as <-. discriminate Hl. }
  split; [reflexivity|]. split; [reflexivity|]. split; [exact Hun|].
  exact (acquire_keeps_stored_value Scenario.after_release "k" "60000000000" "w" "s1"
           60000000000 eq_refl eq_refl Hun).
Defined.

(** X4. Whenever [set] answers success=true, with or without a session
    id, a [get] of the key that follows returns the value just set; when it
    answers success=false the state is unchanged. *)
Theorem set_then_get
    (st : state) (key value sessionId : string) (ok : bool) (st' : state) :
  kvLock st = free →
  set key value sessionId st = Done (SetReturn ok) st' →
  if ok then get key st' = Done (GetReturn true key value) st'
  else st' = st.
Proof.
  intros Hfree Hset. unfold set in Hset. rewrite Hfree in Hset.
  cbn [Lock free writer readers orb Nat.ltb Nat.leb] in Hset.
  change (Unlock (mkRWMutex true 0)) with free in Hset.
  rewrite (with_kvLock_free st Hfree) in Hset.
  assert (Hins : ∀ v : lockableValue,
            get key (with_kvLock free (with_kvs (<[key := v]> (kvs st)) st))
            = Done (GetReturn true key (Value v))
                   (with_kvLock free (with_kvs (<[key := v]> (kvs st)) st))).
  { intros v. apply get_present; [done|]. cbn. apply lookup_insert_eq. }
  repeat case_match; simplify_eq; try done; apply Hins.
Qed.

Lemma set_then_get_witness :
  kvLock Scenario.after_acquire = free
  ∧ ∃ st',
      set "k" "w" "s0" Scenario.after_acquire = Done (SetReturn true) st'
      ∧ get "k" st' = Done (GetReturn true "k" "w") st'.
Proof.
  split; [reflexivity|]. eexists. split; [vm_compute; reflexivity|].
  exact (set_then_get Scenario.after_acquire "k" "w" "s0" true _ eq_refl eq_refl).
Defined.

(** ** Release, destroy and expiry composed with acquire *)

(** X5. [release] is idempotent: repeated with the same arguments it gives
    the same answer and leaves the state the first call produced.  In
    particular a session that has released its key can release it again
    with success. *)
Theorem release_idempotent
    (st : state) (key sessionId : string) (r : response) (st' : state) :
  kvLock st = free →
  release key sessionId st = Done r st' →
  release key sessionId st' = Done r st'.
Proof.
  intros Hfree Hrel.
  destruct (release_cases st key sessionId Hfree)
    as [(v & s & Hk & Hs & Hkey & Hrel1)|[Hno Hrel1]];
    rewrite Hrel1 in Hrel; injection Hrel as <- <-; [|done].
  match goal with |- release _ _ ?s = _ => set (st' := s) end.
  destruct (release_cases st' key sessionId Hfree)
    as [(v' & s' & Hk' & Hs' & Hkey' & Hrel2)|[Hno Hrel2]].
  - rewrite Hrel2. f_equal. unfold st' in Hk' |- *. cbn in Hk' |- *.
    rewrite lookup_insert_eq in Hk'. injection Hk' as <-. cbn.
    unfold with_kvs; cbn. by rewrite insert_insert_eq.
  - exfalso. apply Hno. eexists _, s. split; [apply lookup_insert_eq|done].
Qed.

Lemma release_idempotent_witness :
  kvLock Scenario.after_acquire = free
  ∧ release "k" "s0" Scenario.after_acquire
    = Done (ReleaseReturn true) Scenario.after_release
  ∧ release "k" "s0" Scenario.after_release
    = Done (ReleaseReturn true) Scenario.after_release.
Proof.
  assert (Hrel : release "k" "s0" Scenario.after_acquire
                 = Done (ReleaseReturn true) Scenario.after_release)
    by (vm_compute; reflexivity).
  split; [reflexivity|]. split; [exact Hrel|].
  exact (release_idempotent Scenario.after_acquire "k" "s0" _ _ eq_refl Hrel).
Defined.

(** X6. What a later acquire finds depends on how the lease ended.  After
    a release the entry is still there, so the acquire locks it and the
    old value stays; after a destroy the entry is gone, so the acquire
    creates it with the value it supplies. *)
Theorem reacquire_after_release_or_destroy
    (st : state) (sessionId : string) (s : session) (v : lockableValue) (h : nat)
    (duration value cuid : string) (interval : Z) :
  kvLock st = free →
  sessions st !! sessionId = Some s → Timer s = Some h →
  kvs st !! Key s = Some v →
  ParseInt duration = Some interval →
  (∃ st1 st2,
     release (Key s) sessionId st = Done (ReleaseReturn true) st1
     ∧ acquire (Key s) duration value cuid st1 = Done (AcquireReturn cuid true) st2
     ∧ get (Key s) st2 = Done (GetReturn true (Key s) (Value v)) st2)
  ∧ (∃ st1 st2,
       destroy sessionId st = Done NoBody st1
       ∧ acquire (Key s) duration value cuid st1 = Done (AcquireReturn cuid true) st2
       ∧ get (Key s) st2 = Done (GetReturn true (Key s) value) st2).
Proof.
  intros Hfree Hs Hh Hv Hd. split.
  - destruct (release_cases st (Key s) sessionId Hfree)
      as [(v' & s' & Hk & Hs' & Hkey & Hrel)|[Hno _]];
      [|exfalso; apply Hno; by exists v, s].
    assert (v' = v) as -> by congruence.
    eexists _, _. split; [exact Hrel|].
    match goal with |- acquire _ _ _ _ ?x = _ ∧ _ => set (st1 := x) end.
    assert (Hun : ¬ locked (Key s) st1).
    { intros (w & Hw & Hl). unfold st1 in Hw. cbn in Hw.
      rewrite lookup_insert_eq in Hw. by injection Hw as <-. }
    split; [by apply (acquire_unlocked st1 _ duration value cuid interval)|].
    apply (get_present _ _ (mkLockableValue (Value v) true)); [done|].
    cbn. by rewrite !lookup_insert_eq.
  - eexists _, _. split.
    { unfold destroy. enter Hfree. rewrite Hs, Hh. reflexivity. }
    match goal with |- acquire _ _ _ _ ?x = _ ∧ _ => set (st1 := x) end.
    assert (Hun : ¬ locked (Key s) st1).
    { intros (w & Hw & Hl). unfold st1 in Hw. cbn in Hw.
      by rewrite lookup_delete_eq in Hw. }
    split; [by apply (acquire_unlocked st1 _ duration value cuid interval)|].
    apply (get_present _ _ (mkLockableValue value true)); [done|].
    cbn. by rewrite lookup_insert_eq, lookup_delete_eq.
Qed.

Lemma reacquire_after_release_or_destroy_witness :
  kvLock Scenario.after_acquire = free
  ∧ (∃ st1 st2,
       release "k" "s0" Scenario.after_acquire = Done (ReleaseReturn true) st1
       ∧ acquire "k" "60000000000" "w" "s1" st1 = Done (AcquireReturn "s1" true) st2
       ∧ get "k" st2 = Done (GetReturn true "k" "v") st2)
  ∧ (∃ st1 st2,
       destroy "s0" Scenario.after_acquire = Done NoBody st1
       ∧ acquire "k" "60000000000" "w" "s1" st1 = Done (AcquireReturn "s1" true) st2
       ∧ get "k" st2 = Done (GetReturn true "k" "w") st2).
Proof.
  split; [reflexivity|].
  exact (reacquire_after_release_or_destroy Scenario.after_acquire "s0"
           (mkSession "s0" "k" (Some 0%nat)) (mkLockableValue "v" true) 0
           "60000000000" "w" "s1" 60000000000
           eq_refl eq_refl eq_refl eq_refl eq_refl).
Defined.

(** X7. The identifier a failed acquire returns opens nothing: unless a
    session was already registered under it, a release or an authorized
    set of the key with it is refused, and its renew and destroy do
    nothing, all leaving the state as it was. *)
Theorem failed_acquire_id_grants_nothing
    (st : state) (key duration value cuid value' : string) (interval : Z) :
  kvLock st = free → ParseInt duration = Some interval →
  locked key st → sessions st !! cuid = None →
  acquire key duration value cuid st = Done (AcquireReturn cuid false) st
  ∧ release key cuid st = Done (ReleaseReturn false) st
  ∧ set key value' cuid st = Done (SetReturn false) st
  ∧ renew cuid duration st = Done NoBody st
  ∧ destroy cuid st = Done NoBody st.
Proof.
  intros Hfree Hd Hl Hfresh. split; [by apply (acquire_locked _ _ _ _ _ interval)|].
  destruct Hl as (v & Hv & _).
  split; [|split; [|split]].
  - unfold release. enter Hfree. rewrite Hv, Hfresh. by rewrite with_kvLock_free.
  - unfold set. enter Hfree. rewrite Hfresh, Hv. rewrite with_kvLock_free by done.
    by destruct (negb _).
  - unfold renew. enter Hfree. rewrite Hd, Hfresh. by rewrite with_kvLock_free.
  - unfold destroy. enter Hfree. rewrite Hfresh. by rewrite with_kvLock_free.
Qed.

Lemma failed_acquire_id_grants_nothing_witness :
  kvLock Scenario.after_acquire = free
  ∧ ParseInt "60000000000" = Some 60000000000
  ∧ locked "k" Scenario.after_acquire
  ∧ sessions Scenario.after_acquire !! "s1"%string = None
  ∧ acquire "k" "60000000000" "w" "s1" Scenario.after_acquire
    = Done (AcquireReturn "s1" false) Scenario.after_acquire
  ∧ release "k" "s1" Scenario.after_acquire
    = Done (ReleaseReturn false) Scenario.after_acquire.
Proof.
  assert (Hl : locked "k" Scenario.after_acquire).
  { exists (mkLockableValue "v" true). split; reflexivity. }
  destruct (failed_acquire_id_grants_nothing Scenario.after_acquire
              "k" "60000000000" "w" "s1" "x" 60000000000
              eq_refl eq_refl Hl eq_refl) as (Hacq & Hrel & _).
  split; [reflexivity|]. split; [reflexivity|]. split; [exact Hl|].
  split; [reflexivity|]. split; [exact Hacq|exact Hrel].
Defined.

(** ** What an event can and cannot change *)

Ltac run_handlers H :=
  unfold acquire, release, set, get, listKeys, renew, destroy, expiry, startTimer in H;
  repeat case_match; simplify_eq; cbn [final] in *; simplify_eq.

Ltac split_lookup H :=
  repeat match type of H with
    | context [<[?a := _]> _ !! ?b] =>
        let Heq := fresh "Heq" in
        destruct (decide (a = b)) as [Heq|?];
        [rewrite Heq in H; rewrite lookup_insert_eq in H
        |rewrite lookup_insert_ne in H by done]
    | context [delete ?a _ !! ?b] =>
        let Heq := fresh "Heq" in
        destruct (decide (a = b)) as [Heq|?];
        [rewrite Heq in H; rewrite lookup_delete_eq in H
        |rewrite lookup_delete_ne in H by done]
    end.

(** X9. The stored value of an existing key changes only through an
    authorized [set] by a session leasing that key: no acquire, release,
    renew, read or unauthenticated [set] alters it. *)
Theorem value_changes_only_by_authorized_set
    (st : state) (e : event) (st' : state) (k : string) (v v' : lockableValue) :
  final (exec e st) = Some st' →
  kvs st !! k = Some v → kvs st' !! k = Some v' → Value v' ≠ Value v →
  ∃ value sessionId,
    e = ESet k value sessionId ∧ sessionId ≠ EmptyString
    ∧ leases sessionId k st ∧ Value v' = value.
Proof.
  intros Hfin Hk Hk' Hne.
  destruct e; cbn [exec] in Hfin; run_handlers Hfin; cbn in Hk'.
  all: try (exfalso; congruence).
  all: split_lookup Hk'; simplify_eq.
  all: try (exfalso; cbn in *; congruence).
  eexists _, _. split; [reflexivity|]. split; [|split; [|reflexivity]].
  - intros ->. discriminate.
  - eexists. split; [done|]. by apply String.eqb_eq.
Qed.

Lemma value_changes_only_by_authorized_set_witness :
  final (exec (ESet "k" "w" "s0") Scenario.after_acquire)
  = Some (with_kvs {[ "k"%string := mkLockableValue "w" true ]} Scenario.after_acquire)
  ∧ ∃ value sessionId,
      ESet "k" "w" "s0" = ESet "k" value sessionId ∧ sessionId ≠ EmptyString
      ∧ leases sessionId "k" Scenario.after_acquire.
Proof.
  assert (Hfin : final (exec (ESet "k" "w" "s0") Scenario.after_acquire)
                 = Some (with_kvs {[ "k"%string := mkLockableValue "w" true ]}
                           Scenario.after_acquire))
    by (vm_compute; reflexivity).
  split; [exact Hfin|].
  destruct (value_changes_only_by_authorized_set Scenario.after_acquire
              (ESet "k" "w" "s0") _ "k" (mkLockableValue "v" true)
              (mkLockableValue "w" true) Hfin eq_refl eq_refl)
    as (value & sessionId & He & Hne & Hl & _).
  - cbn. discriminate.
  - exists value, sessionId. split; [exact He|]. split; [exact Hne|exact Hl].
Defined.

(** X10. An entry comes into the table only through an acquire of its
    key or an unauthenticated [set] of it, and leaves the table only
    through the destroy of a session leasing the key or the expiry of a
    timer that captured it: release, renew, the authorized [set] and the
    reads neither create nor delete entries. *)
Theorem entry_lifecycle (st : state) (e : event) (st' : state) (k : string) :
  final (exec e st) = Some st' →
  (kvs st !! k = None → is_Some (kvs st' !! k) →
     (∃ duration value cuid, e = EAcquire k duration value cuid)
     ∨ (∃ value, e = ESet k value EmptyString))
  ∧ (is_Some (kvs st !! k) → kvs st' !! k = None →
       (∃ sessionId, e = EDestroy sessionId ∧ leases sessionId k st)
       ∨ (∃ h t, e = EExpire h ∧ timers st !! h = Some t ∧ tKey t = k)).
Proof.
  intros Hfin. split.
  - intros Hk [v Hk'].
    destruct e; cbn [exec] in Hfin; run_handlers Hfin; cbn in Hk'.
    all: try (exfalso; congruence).
    all: split_lookup Hk'; simplify_eq.
    all: try (exfalso; congruence).
    all: try (left; by eexists _, _, _).
    right. apply negb_false_iff, String.eqb_eq in H0 as ->. by eexists.
  - intros [v Hk] Hk'.
    destruct e; cbn [exec] in Hfin; run_handlers Hfin; cbn in Hk'.
    all: try (exfalso; congruence).
    all: split_lookup Hk'; simplify_eq.
    all: try (exfalso; congruence).
    + left. eexists. split; [done|]. by eexists.
    + right. by eexists _, _.
Qed.

Lemma entry_lifecycle_witness :
  final (exec (EDestroy "s0") Scenario.after_acquire)
  = Some (mkState ∅ ∅ free ∅ 1)
  ∧ ((∃ sessionId, EDestroy "s0" = EDestroy sessionId
                   ∧ leases sessionId "k" Scenario.after_acquire)
     ∨ (∃ h t, EDestroy "s0" = EExpire h
               ∧ timers Scenario.after_acquire !! h = Some t ∧ tKey t = "k"%string)).
Proof.
  assert (Hfin : final (exec (EDestroy "s0") Scenario.after_acquire)
                 = Some (mkState ∅ ∅ free ∅ 1))
    by (vm_compute; reflexivity).
  split; [exact Hfin|].
  apply (proj2 (entry_lifecycle Scenario.after_acquire (EDestroy "s0") _ "k" Hfin)).
  - by eexists.
  - reflexivity.
Defined.

(** X11. A session is registered only by a successful acquire that was
    given its id, and leaves the registry only through its destroy or the
    expiry of a timer that captured its id: release, renew, [set] and the
    reads neither register nor remove sessions. *)
Theorem session_lifecycle (st : state) (e : event) (st' : state) (sid : string) :
  final (exec e st) = Some st' →
  (sessions st !! sid = None → is_Some (sessions st' !! sid) →
     ∃ key duration value,
       e = EAcquire key duration value sid
       ∧ exec e st = Done (AcquireReturn sid true) st'
       ∧ sessions st' !! sid = Some (mkSession sid key (Some (next_timer st))))
  ∧ (is_Some (sessions st !! sid) → sessions st' !! sid = None →
       e = EDestroy sid
       ∨ (∃ h t, e = EExpire h ∧ timers st !! h = Some t ∧ tID t = sid)).
Proof.
  intros Hfin. split.
  - intros Hs [s' Hs'].
    destruct e; cbn [exec] in Hfin; [|run_handlers Hfin; cbn in Hs'..].
    1: { destruct (final (acquire key duration value cuid st)) eqn:Hf; [|done].
         injection Hfin as ->.
         destruct (Lock (kvLock st)) as [l|] eqn:HL;
           [|by unfold acquire in Hf; rewrite HL in Hf].
         apply Lock_Some in HL as [Hfree ->].
         destruct (ParseInt duration) as [interval|] eqn:Hd.
         - destruct (locked_or_not key st) as [Hl|Hun].
           + rewrite (acquire_locked st key duration value cuid interval) in Hf by done.
             injection Hf as <-. congruence.
           + pose proof (acquire_unlocked st key duration value cuid interval
                           Hfree Hd Hun) as Hacq.
             cbv zeta in Hacq. rewrite Hacq in Hf. injection Hf as <-. cbn in Hs'.
             split_lookup Hs'; [|congruence]. subst cuid.
             eexists _, _, _. split; [reflexivity|]. split; [exact Hacq|].
             cbn. apply lookup_insert_eq.
         - unfold acquire in Hf. rewrite Hfree, Lock_free, Hd in Hf.
           injection Hf as <-. cbn in Hs'. congruence. }
    all: try (exfalso; congruence).
    all: split_lookup Hs'; simplify_eq; try (exfalso; congruence).
  - intros [s Hs] Hs'.
    destruct e; cbn [exec] in Hfin; run_handlers Hfin; cbn in Hs'.
    all: try (exfalso; congruence).
    all: split_lookup Hs'; simplify_eq.
    all: try (exfalso; congruence).
    + by left.
    + right. by eexists _, _.
Qed.

Lemma session_lifecycle_witness :
  final (exec (EAcquire "k" "60000000000" "v" "s0") init) = Some Scenario.after_acquire
  ∧ sessions init !! "s0"%string = None
  ∧ ∃ key duration value,
      EAcquire "k" "60000000000" "v" "s0" = EAcquire key duration value "s0"
      ∧ sessions Scenario.after_acquire !! "s0"%string
        = Some (mkSession "s0" key (Some (next_timer init))).
Proof.
  assert (Hfin : final (exec (EAcquire "k" "60000000000" "v" "s0") init)
                 = Some Scenario.after_acquire)
    by (vm_compute; reflexivity).
  split; [exact Hfin|]. split; [reflexivity|].
  destruct (proj1 (session_lifecycle init _ _ "s0" Hfin) eq_refl)
    as (key & duration & value & He & _ & Hs).
  - by eexists.
  - exists key, duration, value. split; [exact He|exact Hs].
Defined.

(** X12. While a session stays registered its id and its key never
    change: the only field an event rewrites is the timer handle. *)
Theorem session_key_immutable
    (st : state) (e : event) (st' : state) (sid : string) (s s' : session) :
  step st e st' →
  sessions st !! sid = Some s → sessions st' !! sid = Some s' →
  ID s' = ID s ∧ Key s' = Key s.
Proof.
  intros [Hen Hfin] Hs Hs'.
  destruct e; cbn [exec] in Hfin; cbn [enabled] in Hen;
    run_handlers Hfin; cbn in Hs'.
  all: try (by simplify_eq).
  all: split_lookup Hs'; simplify_eq; try done.
Qed.

Lemma session_key_immutable_witness :
  step Scenario.after_acquire (ERenew "s0" "5")
       (mkState {[ "k"%string := mkLockableValue "v" true ]}
                {[ "s0"%string := mkSession "s0" "k" (Some 1%nat) ]}
                free {[ 1%nat := mkTimer 5 "k" "s0" ]} 2)
  ∧ ID (mkSession "s0" "k" (Some 1%nat)) = "s0"%string
  ∧ Key (mkSession "s0" "k" (Some 1%nat)) = "k"%string.
Proof.
  assert (Hstep : step Scenario.after_acquire (ERenew "s0" "5")
                    (mkState {[ "k"%string := mkLockableValue "v" true ]}
                             {[ "s0"%string := mkSession "s0" "k" (Some 1%nat) ]}
                             free {[ 1%nat := mkTimer 5 "k" "s0" ]} 2))
    by concrete_step.
  split; [exact Hstep|].
  exact (session_key_immutable Scenario.after_acquire _ _ "s0"
           (mkSession "s0" "k" (Some 0%nat)) (mkSession "s0" "k" (Some 1%nat))
           Hstep eq_refl eq_refl).
Defined.

(** ** The guard across requests *)

(** X15. A request or callback that starts with the guard free leaves it
    free, with three exceptions, in each of which the guard stays held for
    good: the acquire given a duration [ParseInt] rejects and the
    authorized [set] that panics on a missing entry keep the write lock,
    and the key listing that panics keeps a read lock. *)
Theorem guard_after_event (st : state) (e : event) (st' : state) :
  kvLock st = free → final (exec e st) = Some st' →
  kvLock st' = free
  ∨ (kvLock st' = mkRWMutex true 0
     ∧ ((∃ key duration value cuid,
           e = EAcquire key duration value cuid ∧ ParseInt duration = None)
        ∨ (∃ key value sessionId,
             e = ESet key value sessionId ∧ exec e st = Panic st'
             ∧ leases sessionId key st ∧ kvs st !! key = None)))
  ∨ (kvLock st' = mkRWMutex false 1
     ∧ ∃ prefix order, e = EKeys prefix order ∧ exec e st = Panic st').
Proof.
  intros Hfree Hfin.
  destruct e; cbn [exec] in Hfin |- *;
    unfold acquire, release, set, get, listKeys, renew, destroy, expiry, startTimer
      in Hfin |- *;
    rewrite Hfree in Hfin |- *;
    cbn [Lock RLock free writer readers orb Nat.ltb Nat.leb] in Hfin |- *;
    repeat case_match; simplify_eq; cbn [final] in *; simplify_eq;
    try (left; reflexivity).
  - match goal with
    | H : <[_ := _]> _ !! _ = None |- _ => by rewrite lookup_insert_eq in H
    end.
  - right. left. split; [reflexivity|]. left. by eexists _, _, _, _.
  - right. left. split; [reflexivity|]. right. eexists _, _, _.
    split; [reflexivity|]. split; [reflexivity|]. split; [|done].
    eexists. split; [done|]. by apply String.eqb_eq.
  - right. right. split; [reflexivity|]. by eexists _, _.
Qed.

Lemma guard_after_event_witness :
  kvLock Scenario.after_acquire = free
  ∧ final (exec (ERelease "k" "s0") Scenario.after_acquire) = Some Scenario.after_release
  ∧ kvLock Scenario.after_release = free.
Proof.
  assert (Hfin : final (exec (ERelease "k" "s0") Scenario.after_acquire)
                 = Some Scenario.after_release)
    by (vm_compute; reflexivity).
  split; [reflexivity|]. split; [exact Hfin|].
  destruct (guard_after_event Scenario.after_acquire (ERelease "k" "s0")
              Scenario.after_release eq_refl Hfin)
    as [Hfree|[[Hheld _]|[Hheld _]]].
  - exact Hfree.
  - discriminate Hheld.
  - discriminate Hheld.
Defined.

(** X16. After an acquire that is given an invalid duration while the
    guard is free, no request and no timer callback ever makes progress
    again: each one waits for the guard, so no run continues from that
    state.  The status handler, which takes no guard, still reports the
    server as running. *)
Theorem invalid_acquire_blocks_server (st : state) (key duration value cuid : string) :
  kvLock st = free → ParseInt duration = None →
  ∃ st',
    acquire key duration value cuid st = Done (HttpError 500) st'
    ∧ (∀ e, exec e st' = Wait)
    ∧ (∀ es st'', trace st' es st'' → es = [] ∧ st'' = st')
    ∧ status st' = (mkStatusReturn true, st').
Proof.
  intros Hfree Hd. eexists. split; [by apply acquire_invalid_duration_keeps_guard|].
  match goal with |- (∀ e, exec e ?s = _) ∧ _ => set (st' := s) end.
  assert (Hwait : ∀ e, exec e st' = Wait) by (intros e; by apply held_guard_blocks).
  split; [exact Hwait|]. split; [|reflexivity].
  intros es st'' Htr. inversion Htr as [|? e st1 es' ? [_ Hfin]]; subst; [done|].
  by rewrite Hwait in Hfin.
Qed.

Lemma invalid_acquire_blocks_server_witness :
  kvLock Scenario.after_acquire = free
  ∧ ParseInt "1h" = None
  ∧ ∃ st',
      acquire "k2" "1h" "v" "s1" Scenario.after_acquire = Done (HttpError 500) st'
      ∧ exec (EDestroy "s0") st' = Wait
      ∧ exec (EExpire 0) st' = Wait.
Proof.
  split; [reflexivity|]. split; [reflexivity|].
  destruct (invalid_acquire_blocks_server Scenario.after_acquire "k2" "1h" "v" "s1"
              eq_refl eq_refl) as (st' & Hacq & Hwait & _).
  exists st'. split; [exact Hacq|]. split; apply Hwait.
Defined.


(** * Further properties of the server *)

(** ** Renew *)

(** X8. In a state the server can reach, with the guard free and a valid
    duration: [renew] of a registered session arms a new timer with the new
    duration and the same key and id and takes the old handle out of the
    pending timers, leaving the table untouched.  If the old timer had
    already fired, its callback stays in flight and still runs: it then
    removes the renewed session and the entry of its key, and the new
    timer stays pending.  [renew] of an unknown id answers without an
    error and changes nothing. *)
Theorem renew_rearms (srv : server) (sessionId duration : string) (interval : Z) :
  sreachable srv → kvLock (shared srv) = free → ParseInt duration = Some interval →
  match sessions (shared srv) !! sessionId with
  | Some s =>
      ∃ h st',
        Timer s = Some h
        ∧ renew sessionId duration (shared srv) = Done NoBody st'
        ∧ sexec (SReq (ERenew sessionId duration)) srv
          = SDone NoBody (mkServer st' (started srv) (queued srv))
        ∧ timers st' !! h = None
        ∧ timers st' !! next_timer (shared srv)
          = Some (mkTimer interval (Key s) sessionId)
        ∧ sessions st' !! sessionId
          = Some (mkSession sessionId (Key s) (Some (next_timer (shared srv))))
        ∧ kvs st' = kvs (shared srv)
        ∧ kvLock st' = free
        ∧ (∀ t, started srv !! h = Some t →
             ∃ srv2,
               sexec (SRun h) (mkServer st' (started srv) (queued srv))
               = SDone NoBody srv2
               ∧ sessions (shared srv2) !! sessionId = None
               ∧ kvs (shared srv2) !! Key s = None
               ∧ timers (shared srv2) !! next_timer (shared srv)
                 = Some (mkTimer interval (Key s) sessionId))
  | None =>
      renew sessionId duration (shared srv) = Done NoBody (shared srv)
      ∧ sexec (SReq (ERenew sessionId duration)) srv = SDone NoBody srv
  end.
Proof.
  intros Hreach Hfree Hd.
  pose proof (swf_sreachable srv Hreach) as Hwf.
  destruct (sessions (shared srv) !! sessionId) as [s|] eqn:Hs.
  - destruct (wf_armed _ _ Hwf sessionId s Hs) as (h & t0 & Hh & Hcb & Hid0).
    pose proof (wf_fresh _ _ Hwf h t0 Hcb) as Hlt.
    pose proof (wf_ids _ _ Hwf sessionId s Hs) as Hid.
    assert (Hkey : Key s = tKey t0).
    { apply (wf_captured _ _ Hwf h t0 s Hcb). by rewrite Hid0. }
    assert (Hren : renew sessionId duration (shared srv)
                   = Done NoBody (with_kvLock free
                       (startTimer interval sessionId s (shared srv)))).
    { unfold renew. enter Hfree. by rewrite Hd, Hs. }
    assert (Hgone : <[next_timer (shared srv) := mkTimer interval (Key s) sessionId]>
                      (delete h (timers (shared srv))) !! h = None).
    { rewrite lookup_insert_ne by lia. apply lookup_delete_eq. }
    exists h. eexists. split; [done|]. split; [exact Hren|].
    split; [cbn [sexec is_read exec]; by rewrite Hren|].
    unfold startTimer. rewrite Hh, Hid. cbn.
    split; [exact Hgone|]. split; [apply lookup_insert_eq|].
    split; [apply lookup_insert_eq|]. split; [done|]. split; [done|].
    intros t Ht.
    assert (t = t0) as -> by (by apply (callback_unique _ _ Hwf h); [right|]).
    rewrite Ht. unfold expiry. cbn. eexists. split; [reflexivity|]. cbn.
    rewrite Hid0, <- Hkey. split; [apply lookup_delete_eq|].
    split; [apply lookup_delete_eq|].
    rewrite lookup_delete_ne by lia. apply lookup_insert_eq.
  - assert (Hren : renew sessionId duration (shared srv) = Done NoBody (shared srv)).
    { unfold renew. enter Hfree. rewrite Hd, Hs. by rewrite with_kvLock_free. }
    split; [exact Hren|]. cbn [sexec is_read exec]. rewrite Hren. cbn. by destruct srv.
Qed.

Lemma sreachable_renewed_late : sreachable Race.renewed_late.
Proof.
  apply (sreach_step Race.fired (SReq (ERenew "s0" "5"))); [apply sreachable_fired|].
  concrete_sstep.
Qed.

Lemma renew_rearms_witness :
  sreachable Race.fired
  ∧ kvLock (shared Race.fired) = free
  ∧ ParseInt "5" = Some 5
  ∧ ∃ h st',
      Timer (mkSession "s0" "k" (Some 0%nat)) = Some h
      ∧ sexec (SReq (ERenew "s0" "5")) Race.fired
        = SDone NoBody (mkServer st' (started Race.fired) (queued Race.fired))
      ∧ timers st' !! 1%nat = Some (mkTimer 5 "k" "s0")
      ∧ ∃ srv2,
          sexec (SRun h) (mkServer st' (started Race.fired) (queued Race.fired))
          = SDone NoBody srv2
          ∧ sessions (shared srv2) !! "s0"%string = None.
Proof.
  split; [apply sreachable_fired|]. split; [reflexivity|]. split; [reflexivity|].
  pose proof (renew_rearms Race.fired "s0" "5" 5 sreachable_fired eq_refl eq_refl) as H.
  change (sessions (shared Race.fired) !! "s0"%string)
    with (Some (mkSession "s0" "k" (Some 0%nat))) in H.
  destruct H as (h & st' & Hh & _ & Hsexec & _ & Hnew & _ & _ & _ & Hlate).
  pose proof Hh as Hh'. injection Hh' as <-.
  destruct (Hlate (mkTimer 60000000000 "k" "s0") eq_refl) as (srv2 & Hrun & Hs & _).
  exists 0%nat, st'. split; [exact Hh|]. split; [exact Hsexec|]. split; [exact Hnew|].
  exists srv2. split; [exact Hrun|exact Hs].
Defined.

(** ** Invariants of every state of the server *)

Lemma locked_has_session_same (st st' : state) :
  (∀ k, locked k st' → locked k st) →
  (∀ sid s, sessions st !! sid = Some s →
            ∃ s', sessions st' !! sid = Some s' ∧ Key s' = Key s) →
  locked_has_session st → locked_has_session st'.
Proof.
  intros Hk Hs Hinv k Hl.
  destruct (Hinv k (Hk k Hl)) as (sid & s & Hsid & Hkey).
  destruct (Hs sid s Hsid) as (s' & Hs' & Hkey'). exists sid, s'. split; congruence.
Qed.

Lemma locked_has_session_remove (st st' : state) (sid : string) (s : session) :
  sessions st !! sid = Some s →
  kvs st' = delete (Key s) (kvs st) →
  sessions st' = delete sid (sessions st) →
  locked_has_session st → locked_has_session st'.
Proof.
  intros Hsid Ek Es Hinv k (v & Hv & Hl). rewrite Ek in Hv.
  apply lookup_delete_Some in Hv as [Hne Hv].
  destruct (Hinv k) as (sid0 & s0 & Hs0 & Hkey); [by exists v|].
  exists sid0, s0. split; [|done]. rewrite Es, lookup_delete_ne; [done|].
  intros <-. congruence.
Qed.

Lemma locked_has_session_exec (st : state) (e : event) (st' : state) :
  locked_has_session st →
  match e with
  | EAcquire _ _ _ cuid => sessions st !! cuid = None
  | EExpire _ => False
  | _ => True
  end →
  final (exec e st) = Some st' → locked_has_session st'.
Proof.
  intros Hinv Hen Hfin. destruct e; cbn in Hfin; [| | | | | | |done].
  - (* acquire *)
    destruct (Lock (kvLock st)) as [l|] eqn:HL;
      [|by unfold acquire in Hfin; rewrite HL in Hfin].
    apply Lock_Some in HL as [Hfree ->].
    destruct (ParseInt duration) as [interval|] eqn:Hd.
    + destruct (locked_or_not key st) as [Hl|Hun].
      * rewrite (acquire_locked st key duration value cuid interval) in Hfin by done.
        by injection Hfin as <-.
      * rewrite (acquire_unlocked st key duration value cuid interval) in Hfin by done.
        injection Hfin as <-. intros k (v & Hv & Hlk). cbn in Hv |- *.
        destruct (decide (key = k)) as [->|Hne].
        { eexists cuid, _. by rewrite lookup_insert_eq. }
        rewrite lookup_insert_ne in Hv by done.
        destruct (Hinv k) as (sid & s & Hs & Hkey); [by exists v|].
        exists sid, s. split; [|done]. rewrite lookup_insert_ne; [done|]. congruence.
    + unfold acquire in Hfin. rewrite Hfree, Lock_free, Hd in Hfin.
      injection Hfin as <-. by apply (locked_has_session_same st); eauto.
  - (* release *)
    unfold release in Hfin. repeat case_match; simplify_eq; cbn [final] in *; simplify_eq;
      apply (locked_has_session_same st); eauto.
    intros k (w & Hw & Hl). cbn in Hw. split_lookup Hw; simplify_eq;
      first [done | by exists w | by eexists].
  - (* set *)
    unfold set in Hfin. repeat case_match; simplify_eq; cbn [final] in *; simplify_eq;
      apply (locked_has_session_same st); eauto.
    + intros k (w & Hw & Hl). cbn in Hw. split_lookup Hw; simplify_eq;
        first [done | by exists w | by eexists].
    + intros k (w & Hw & Hl). cbn in Hw. split_lookup Hw; simplify_eq;
        first [done | by exists w | by eexists].
  - (* get *)
    unfold get in Hfin. repeat case_match; simplify_eq; cbn [final] in *; simplify_eq;
      apply (locked_has_session_same st); eauto.
  - (* keys *)
    unfold listKeys in Hfin. repeat case_match; simplify_eq; cbn [final] in *; simplify_eq;
      apply (locked_has_session_same st); eauto.
  - (* renew *)
    unfold renew in Hfin. repeat case_match; simplify_eq; cbn [final] in *; simplify_eq;
      apply (locked_has_session_same st); eauto.
    intros sid s0 Hs0. unfold startTimer. cbn.
    destruct (decide (sessionId = sid)) as [->|Hne].
    + rewrite lookup_insert_eq. eexists. split; [done|]. cbn. congruence.
    + rewrite lookup_insert_ne by done. by exists s0.
  - (* destroy *)
    unfold destroy in Hfin. repeat case_match; simplify_eq; cbn [final] in *; simplify_eq;
      try (apply (locked_has_session_same st); by eauto).
    by eapply (locked_has_session_remove st _ sessionId).
Qed.

Lemma locked_has_session_sreachable (srv : server) :
  sreachable srv → locked_has_session (shared srv).
Proof.
  induction 1 as [|srv e srv' Hreach IH [Hen <-]].
  - intros k (v & Hv & _). cbn in Hv. by rewrite lookup_empty in Hv.
  - pose proof (swf_sreachable srv Hreach) as Hwf. destruct e as [e|h|h].
    + assert (Hne : ∀ h, e ≠ EExpire h) by (intros h ->; exact Hen).
      destruct (sexec_req srv e Hne) as [[-> _]|(st' & Hfin & -> & _)]; [done|].
      cbn. apply (locked_has_session_exec (shared srv) e st'); [done| |done].
      destruct e; try done. by destruct Hen.
    + cbn in Hen |- *. destruct (timers (shared srv) !! h) as [t|]; [|done].
      cbn. by apply (locked_has_session_same (shared srv)); eauto.
    + cbn in Hen |- *. destruct (started srv !! h) as [t|] eqn:Ht; [|done].
      unfold expiry. destruct (Lock (kvLock (shared srv))) as [l|]; [|done].
      cbn. intros k (v & Hv & Hl). cbn in Hv |- *.
      apply lookup_delete_Some in Hv as [Hne Hv].
      destruct (IH k) as (sid & s & Hs & Hkey); [by exists v|].
      exists sid, s. split; [|done]. rewrite lookup_delete_ne; [done|].
      intros Heq. apply Hne. rewrite <- Hkey. symmetry.
      apply (wf_captured _ _ Hwf h t s); [by right|]. by rewrite Heq.
Qed.

(** X13. In every state the server can reach, a key whose lock flag is set
    has a registered session leasing it, and the callback of that session's
    timer, pending or in flight, captured the key. *)
Theorem locked_key_has_session (srv : server) (k : string) :
  sreachable srv → locked k (shared srv) →
  ∃ sid s h t,
    sessions (shared srv) !! sid = Some s ∧ Key s = k
    ∧ Timer s = Some h ∧ callback (shared srv) (started srv) h t
    ∧ tID t = sid ∧ tKey t = k.
Proof.
  intros Hreach Hl.
  pose proof (swf_sreachable srv Hreach) as Hwf.
  destruct (locked_has_session_sreachable srv Hreach k Hl) as (sid & s & Hs & Hkey).
  destruct (wf_armed _ _ Hwf sid s Hs) as (h & t & Hh & Hcb & Hid).
  exists sid, s, h, t. repeat split; try done.
  rewrite <- Hkey. symmetry. apply (wf_captured _ _ Hwf h t s Hcb). by rewrite Hid.
Qed.

Lemma locked_key_has_session_witness :
  sreachable Race.fired
  ∧ locked "k" (shared Race.fired)
  ∧ ∃ sid s h t,
      sessions (shared Race.fired) !! sid = Some s ∧ Key s = "k"%string
      ∧ Timer s = Some h ∧ callback (shared Race.fired) (started Race.fired) h t
      ∧ tID t = sid ∧ tKey t = "k"%string.
Proof.
  assert (Hl : locked "k" (shared Race.fired)).
  { exists (mkLockableValue "v" true). split; reflexivity. }
  split; [apply sreachable_fired|]. split; [exact Hl|].
  exact (locked_key_has_session Race.fired "k" sreachable_fired Hl).
Defined.

(** X14. In every state the server can reach, each registered session is
    stored under its own id and holds a timer handle whose callback,
    pending or in flight, captured its id and key, and no other session
    holds that handle. *)
Theorem sessions_hold_own_timers (srv : server) (sid : string) (s : session) :
  sreachable srv → sessions (shared srv) !! sid = Some s →
  ID s = sid
  ∧ ∃ h t,
      Timer s = Some h ∧ callback (shared srv) (started srv) h t
      ∧ (h < next_timer (shared srv))%nat
      ∧ tID t = sid ∧ tKey t = Key s
      ∧ ∀ sid' s', sessions (shared srv) !! sid' = Some s' →
                   Timer s' = Some h → sid' = sid.
Proof.
  intros Hreach Hs.
  pose proof (swf_sreachable srv Hreach) as Hwf.
  split; [by apply (wf_ids _ _ Hwf)|].
  destruct (wf_armed _ _ Hwf sid s Hs) as (h & t & Hh & Hcb & Hid).
  exists h, t. split; [done|]. split; [done|].
  split; [by apply (wf_fresh _ _ Hwf h t)|]. split; [done|]. split.
  - symmetry. apply (wf_captured _ _ Hwf h t s Hcb). by rewrite Hid.
  - intros sid' s' Hs' Hh'. by apply (swf_owner _ _ Hwf sid' sid s' s h).
Qed.

Lemma sessions_hold_own_timers_witness :
  sreachable Race.reacquired
  ∧ sessions (shared Race.reacquired) !! "s1"%string
    = Some (mkSession "s1" "k" (Some 1%nat))
  ∧ ∃ h t,
      Timer (mkSession "s1" "k" (Some 1%nat)) = Some h
      ∧ callback (shared Race.reacquired) (started Race.reacquired) h t
      ∧ tID t = "s1"%string.
Proof.
  split; [apply sreachable_reacquired|]. split; [reflexivity|].
  destruct (sessions_hold_own_timers Race.reacquired "s1"
              (mkSession "s1" "k" (Some 1%nat)) sreachable_reacquired eq_refl)
    as (_ & h & t & Hh & Hcb & _ & Hid & _).
  exists h, t. split; [exact Hh|]. split; [exact Hcb|exact Hid].
Defined.

(** ** A read lock that is never released *)

(** X17. While a read lock is held and never released, as after a key
    listing that panicked: a request that writes, and a callback in flight
    that asks for the guard, wait for good and count from then on as a
    waiting writer; [get] answers from the table, leaving the state as it
    is, only as long as no writer waits; once one does, every request
    waits. *)
Theorem leaked_read_lock_blocks_writers (srv : server) :
  writer (kvLock (shared srv)) = false → (0 < readers (kvLock (shared srv)))%nat →
  (∀ e, is_read e = false → (∀ h, e ≠ EExpire h) →
        sexec (SReq e) srv = SWait (mkServer (shared srv) (started srv) true))
  ∧ (∀ h t, started srv !! h = Some t →
            sexec (SRun h) srv = SWait (mkServer (shared srv) (started srv) true))
  ∧ (queued srv = false →
     ∀ key,
       sexec (SReq (EGet key)) srv
       = SDone (match kvs (shared srv) !! key with
                | Some v => GetReturn true key (Value v)
                | None => GetReturn false EmptyString EmptyString
                end) srv)
  ∧ (queued srv = true → ∀ e, sexec (SReq e) srv = SWait srv).
Proof.
  intros Hw Hr.
  assert (HL : Lock (kvLock (shared srv)) = None).
  { unfold Lock. rewrite Hw. cbn [orb]. apply Nat.ltb_lt in Hr. by rewrite Hr. }
  assert (Hwait : ∀ e, is_read e = false → (∀ h, e ≠ EExpire h) →
                       exec e (shared srv) = Wait).
  { intros e He Hne. destruct e; try done; cbn [exec];
      unfold acquire, release, set, renew, destroy; rewrite ?HL; try done.
    by destruct (Hne h). }
  split; [|split; [|split]].
  - intros e He Hne. pose proof (Hwait e He Hne) as Hx.
    destruct e; try done; try (exfalso; by eapply Hne);
      cbn [sexec is_read]; rewrite Hx; cbn; by rewrite orb_true_r.
  - intros h t Ht. cbn. rewrite Ht. unfold expiry. by rewrite HL.
  - intros Hq key. cbn [sexec is_read exec]. rewrite Hq.
    unfold get, RLock. rewrite Hw.
    assert (Hst : with_kvLock (RUnlock (mkRWMutex false (S (readers (kvLock (shared srv))))))
                    (shared srv) = shared srv).
    { destruct (shared srv) as [? ? [w r] ? ?]; cbn in *. by subst. }
    rewrite Hst. destruct srv as [st fl q]; cbn in *. subst q.
    by destruct (kvs st !! key).
  - intros Hq e. destruct srv as [st fl q]; cbn in Hq; subst q.
    destruct e; cbn [sexec is_read]; try done;
      match goal with
      | |- settle _ _ (exec ?e _) = _ =>
          rewrite (Hwait e eq_refl) by (intros ? ?; discriminate)
      end; done.
Qed.

Lemma leaked_read_lock_blocks_writers_witness :
  let srv := mkServer (with_kvLock (mkRWMutex false 1) Scenario.with_three_keys) ∅ false in
  sexec (SReq (EKeys "ab" ["ab"; "abc"; "b"]%string))
        (mkServer Scenario.with_three_keys ∅ false) = SPanic srv
  ∧ sexec (SReq (EGet "ab")) srv = SDone (GetReturn true "ab" "1") srv
  ∧ sexec (SReq (ESet "c" "4" EmptyString)) srv
    = SWait (mkServer (shared srv) ∅ true)
  ∧ sexec (SReq (EGet "ab")) (mkServer (shared srv) ∅ true)
    = SWait (mkServer (shared srv) ∅ true).
Proof.
  intros srv. split; [vm_compute; reflexivity|].
  assert (Hr : (0 < readers (kvLock (shared srv)))%nat) by (cbn; lia).
  destruct (leaked_read_lock_blocks_writers srv eq_refl Hr) as (Hwr & _ & Hget & _).
  split; [exact (Hget eq_refl "ab"%string)|].
  split; [apply Hwr; [reflexivity|by intros ? [=]]|].
  destruct (leaked_read_lock_blocks_writers (mkServer (shared srv) ∅ true) eq_refl Hr)
    as (_ & _ & _ & Hall).
  exact (Hall eq_refl (EGet "ab")).
Defined.

(** ** Destroy against acquire and expiry *)

(** X18. In a state the server can reach, destroying the session a
    successful acquire has just registered restores the registry and the
    pending timers and removes the entry of the key, so that an unlocked
    entry the key had before the acquire is lost with its value.  If the
    new timer fires before the destroy, the same holds and its callback is
    left in flight. *)
Theorem acquire_then_destroy
    (srv : server) (key duration value cuid : string) (interval : Z) :
  sreachable srv → kvLock (shared srv) = free → ParseInt duration = Some interval →
  ¬ locked key (shared srv) → sessions (shared srv) !! cuid = None →
  ∃ srv1,
    sexec (SReq (EAcquire key duration value cuid)) srv
    = SDone (AcquireReturn cuid true) srv1
    ∧ sexec (SReq (EDestroy cuid)) srv1
      = SDone NoBody
          (mkServer (mkState (delete key (kvs (shared srv))) (sessions (shared srv))
                             free (timers (shared srv)) (S (next_timer (shared srv))))
                    (started srv) (queued srv))
    ∧ ∃ srv1',
        sexec (SFire (next_timer (shared srv))) srv1 = SDone NoBody srv1'
        ∧ sexec (SReq (EDestroy cuid)) srv1'
          = SDone NoBody
              (mkServer (mkState (delete key (kvs (shared srv))) (sessions (shared srv))
                                 free (timers (shared srv))
                                 (S (next_timer (shared srv))))
                        (<[next_timer (shared srv) := mkTimer interval key cuid]>
                           (started srv))
                        (queued srv)).
Proof.
  intros Hreach Hfree Hd Hun Hfresh.
  pose proof (swf_sreachable srv Hreach) as Hwf.
  assert (Hnext : timers (shared srv) !! next_timer (shared srv) = None).
  { destruct (timers (shared srv) !! next_timer (shared srv)) as [t|] eqn:Ht; [|done].
    pose proof (wf_fresh _ _ Hwf _ t (or_introl Ht)). lia. }
  pose proof (acquire_unlocked (shared srv) key duration value cuid interval
                Hfree Hd Hun) as Hacq. cbv zeta in Hacq.
  eexists. split; [cbn [sexec is_read exec]; by rewrite Hacq|].
  split.
  - cbn [sexec is_read exec shared started queued]. unfold destroy.
    cbn [kvLock sessions]. enter Hfree.
    rewrite lookup_insert_eq. cbn.
    by rewrite delete_insert_eq, !delete_insert_id.
  - eexists. split.
    { cbn [sexec shared timers]. rewrite lookup_insert_eq. reflexivity. }
    cbn [sexec is_read exec shared started queued]. unfold destroy.
    cbn [with_timers kvLock sessions]. enter Hfree.
    rewrite lookup_insert_eq. cbn.
    rewrite delete_delete_eq.
    by rewrite delete_insert_eq, !delete_insert_id.
Qed.

Lemma acquire_then_destroy_witness :
  sreachable (mkServer Scenario.after_release ∅ false)
  ∧ ¬ locked "k" Scenario.after_release
  ∧ ∃ srv1,
      sexec (SReq (EAcquire "k" "60000000000" "w" "s1"))
            (mkServer Scenario.after_release ∅ false)
      = SDone (AcquireReturn "s1" true) srv1
      ∧ sexec (SReq (EDestroy "s1")) srv1
        = SDone NoBody
            (mkServer (mkState ∅ (sessions Scenario.after_release) free
                               (timers Scenario.after_release) 2)
                      ∅ false).
Proof.
  assert (Hreach : sreachable (mkServer Scenario.after_release ∅ false))
    by apply reachable_sreachable, reachable_after_release.
  assert (Hun : ¬ locked "k" Scenario.after_release).
  { intros (v & Hv & Hl). vm_compute in Hv. injection Hv as <-. discriminate Hl. }
  split; [exact Hreach|]. split; [exact Hun|].
  destruct (acquire_then_destroy (mkServer Scenario.after_release ∅ false)
              "k" "60000000000" "w" "s1" 60000000000
              Hreach eq_refl eq_refl Hun eq_refl)
    as (srv1 & Hacq & Hdes & _).
  exists srv1. split; [exact Hacq|]. exact Hdes.
Defined.

(** X19. In a state the server can reach, with the guard free, the timer
    of a registered session that fires and whose callback runs at once
    leaves the server as the destroy of that session does.  When the
    timer has already fired, its callback and the destroy leave the same
    shared state, but the destroy leaves the callback in flight. *)
Theorem expiry_acts_as_destroy (srv : server) (sessionId : string) (s : session) :
  sreachable srv → kvLock (shared srv) = free →
  sessions (shared srv) !! sessionId = Some s →
  ∃ h t,
    Timer s = Some h ∧ callback (shared srv) (started srv) h t
    ∧ (timers (shared srv) !! h = Some t →
         ∃ srv1 srv2,
           sexec (SFire h) srv = SDone NoBody srv1
           ∧ sexec (SRun h) srv1 = SDone NoBody srv2
           ∧ sexec (SReq (EDestroy sessionId)) srv = SDone NoBody srv2)
    ∧ (started srv !! h = Some t →
         ∃ st',
           sexec (SRun h) srv
           = SDone NoBody (mkServer st' (delete h (started srv)) (queued srv))
           ∧ sexec (SReq (EDestroy sessionId)) srv
             = SDone NoBody (mkServer st' (started srv) (queued srv))).
Proof.
  intros Hreach Hfree Hs.
  pose proof (swf_sreachable srv Hreach) as Hwf.
  destruct (wf_armed _ _ Hwf sessionId s Hs) as (h & t & Hh & Hcb & Hid).
  assert (Hkey : Key s = tKey t).
  { apply (wf_captured _ _ Hwf h t s Hcb). by rewrite Hid. }
  assert (Hdes : destroy sessionId (shared srv)
                 = Done NoBody
                     (mkState (delete (Key s) (kvs (shared srv)))
                              (delete sessionId (sessions (shared srv)))
                              free (delete h (timers (shared srv)))
                              (next_timer (shared srv)))).
  { unfold destroy. enter Hfree. by rewrite Hs, Hh. }
  exists h, t. split; [done|]. split; [done|]. split.
  - intros Ht.
    assert (Hnot : started srv !! h = None).
    { destruct (started srv !! h) as [t'|] eqn:Hst; [|done].
      apply (wf_disjoint _ _ Hwf) in Hst. congruence. }
    eexists _, _. split; [cbn [sexec]; by rewrite Ht|]. split.
    + cbn [sexec started shared]. rewrite lookup_insert_eq.
      unfold expiry. cbn [with_timers kvLock]. enter Hfree. reflexivity.
    + cbn [sexec is_read exec]. rewrite Hdes. cbn.
      by rewrite delete_delete_eq, delete_insert_id, Hkey, Hid.
  - intros Ht. eexists. split.
    + cbn [sexec]. rewrite Ht. unfold expiry. enter Hfree. reflexivity.
    + cbn [sexec is_read exec]. rewrite Hdes. cbn. by rewrite Hkey, Hid.
Qed.

Lemma expiry_acts_as_destroy_witness :
  sreachable Race.fired
  ∧ kvLock (shared Race.fired) = free
  ∧ ∃ st',
      sexec (SRun 0) Race.fired = SDone NoBody (mkServer st' ∅ false)
      ∧ sexec (SReq (EDestroy "s0")) Race.fired
        = SDone NoBody (mkServer st' (started Race.fired) false).
Proof.
  split; [apply sreachable_fired|]. split; [reflexivity|].
  destruct (expiry_acts_as_destroy Race.fired "s0" (mkSession "s0" "k" (Some 0%nat))
              sreachable_fired eq_refl eq_refl)
    as (h & t & Hh & Hcb & _ & Hlate).
  injection Hh as <-.
  destruct Hcb as [Hp|Hst]; [discriminate Hp|].
  destruct (Hlate Hst) as (st' & Hrun & Hdes).
  exists st'. split; [exact Hrun|exact Hdes].
Defined.
